(** * Boom and Crust Pizzeria: the economic engine and the chart engine

    A shallow embedding of [src/index.tsx]: the derivation of the
    per-labour economic records ([economicData], [maxProfitData],
    [minAtcData]), the curve chart's scales, path builder, zero-crossing
    split, pointer hit regions and tooltip ([Chart]), the bar chart
    ([BarChart]), the eased number display ([AnimatedNumber]), the goal
    effect, and the state of the application with its handlers and its
    scenario list ([handleSaveScenario], [handleClearScenarios]).

    Numbers.  A JavaScript number is modelled as an exact rational or one
    of the three non-finite values; rounding of doubles, the overflow of
    a finite result to an infinity, and the sign of zero are not
    modelled.  A property that holds of the code only where no
    intermediate result overflows carries a hypothesis that bounds the
    values involved ([Number_MAX_VALUE], [moderate]).  Every division in the embedded code is either
    guarded against a zero divisor or has a non-finite operand, so the
    sign of zero never decides a result below.  The numbers written in
    the catalog (table entries, fixed costs) and the price set by the
    slider are finite; [NaN] and the infinities only arise from the
    operations, and chart points may carry any number. *)

From Stdlib Require Import QArith Qcanon.
From stdpp Require Import base decidable option numbers list sorting strings.

(** ** JavaScript numbers and values *)

Module JS.

Inductive number : Type :=
  | Fin (q : Qc)
  | PInf
  | NInf
  | NaN.

Inductive value : Type :=
  | Undefined
  | Num (n : number).

Global Instance number_eq_dec : EqDecision number.
Proof. solve_decision. Defined.

Global Instance value_eq_dec : EqDecision value.
Proof. solve_decision. Defined.

Global Instance number_inhabited : Inhabited number := populate NaN.

(** Integer literals. *)
Definition num (z : Z) : number := Fin (Qc_of_Z z).

(** [ToNumber]: [undefined] reads as [NaN] in arithmetic and comparisons. *)
Definition ToNumber (v : value) : number :=
  match v with
  | Undefined => NaN
  | Num n => n
  end.

(** The infinity carrying the sign given by a comparison with zero. *)
Definition inf_of (c : comparison) : number :=
  match c with
  | Eq => NaN
  | Gt => PInf
  | Lt => NInf
  end.

Definition neg (a : number) : number :=
  match a with
  | Fin q => Fin (- q)
  | PInf => NInf
  | NInf => PInf
  | NaN => NaN
  end.

Definition add (a b : number) : number :=
  match a, b with
  | NaN, _ | _, NaN => NaN
  | Fin p, Fin q => Fin (p + q)
  | PInf, NInf | NInf, PInf => NaN
  | PInf, _ | _, PInf => PInf
  | NInf, _ | _, NInf => NInf
  end.

Definition sub (a b : number) : number := add a (neg b).

Definition mul (a b : number) : number :=
  match a, b with
  | NaN, _ | _, NaN => NaN
  | Fin p, Fin q => Fin (p * q)
  | Fin p, PInf | PInf, Fin p => inf_of (p ?= 0)%Qc
  | Fin p, NInf | NInf, Fin p => inf_of (CompOpp (p ?= 0)%Qc)
  | PInf, PInf | NInf, NInf => PInf
  | PInf, NInf | NInf, PInf => NInf
  end.

Definition div (a b : number) : number :=
  match a, b with
  | NaN, _ | _, NaN => NaN
  | Fin p, Fin q =>
      if decide (q = 0%Qc) then inf_of (p ?= 0)%Qc else Fin (p / q)
  | Fin _, (PInf | NInf) => Fin 0
  | PInf, Fin q => if decide (q < 0)%Qc then NInf else PInf
  | NInf, Fin q => if decide (q < 0)%Qc then PInf else NInf
  | (PInf | NInf), (PInf | NInf) => NaN
  end.

(** Relational comparison; [None] when an operand is [NaN]. *)
Definition cmp (a b : number) : option comparison :=
  match a, b with
  | NaN, _ | _, NaN => None
  | Fin p, Fin q => Some (p ?= q)%Qc
  | PInf, PInf | NInf, NInf => Some Eq
  | PInf, _ | _, NInf => Some Gt
  | NInf, _ | _, PInf => Some Lt
  end.

Definition lt (a b : number) : Prop := cmp a b = Some Lt.
Definition gt (a b : number) : Prop := cmp a b = Some Gt.
Definition le (a b : number) : Prop := cmp a b = Some Lt ∨ cmp a b = Some Eq.
Definition ge (a b : number) : Prop := cmp a b = Some Gt ∨ cmp a b = Some Eq.
(** [a === b] and [a !== b] on numbers. *)
Definition strict_eq (a b : number) : Prop := cmp a b = Some Eq.
Definition strict_ne (a b : number) : Prop := ¬ strict_eq a b.

Global Instance lt_dec : RelDecision lt.
Proof. intros a b. unfold lt. apply _. Defined.
Global Instance gt_dec : RelDecision gt.
Proof. intros a b. unfold gt. apply _. Defined.
Global Instance le_dec : RelDecision le.
Proof. intros a b. unfold le. apply _. Defined.
Global Instance ge_dec : RelDecision ge.
Proof. intros a b. unfold ge. apply _. Defined.
Global Instance strict_eq_dec : RelDecision strict_eq.
Proof. intros a b. unfold strict_eq. apply _. Defined.
Global Instance strict_ne_dec : RelDecision strict_ne.
Proof. intros a b. unfold strict_ne. apply _. Defined.

Definition isFinite (a : number) : bool :=
  match a with
  | Fin _ => true
  | _ => false
  end.

(** The rational carried by a finite number. *)
Definition qval (a : number) : Qc :=
  match a with
  | Fin q => q
  | _ => 0%Qc
  end.

(** Truthiness of a number: [0] and [NaN] are falsy. *)
Definition truthy (a : number) : bool :=
  match a with
  | Fin q => bool_decide (q ≠ 0%Qc)
  | NaN => false
  | PInf | NInf => true
  end.

(** [v || d] with a number on the right: the result is always a number. *)
Definition or_else (v : value) (d : number) : number :=
  match v with
  | Num n => if truthy n then n else d
  | Undefined => d
  end.

(** [arr[i]] on an array of finite numbers: [undefined] out of range. *)
Definition index (arr : list Qc) (i : nat) : value :=
  match arr !! i with
  | Some q => Num (Fin q)
  | None => Undefined
  end.

(** [Math.max(...l)] and [Math.min(...l)]. *)
Definition max2 (a b : number) : number :=
  match cmp a b with
  | None => NaN
  | Some Lt => b
  | Some _ => a
  end.

Definition min2 (a b : number) : number :=
  match cmp a b with
  | None => NaN
  | Some Gt => b
  | Some _ => a
  end.

Definition Math_max (l : list number) : number := foldr max2 NInf l.
Definition Math_min (l : list number) : number := foldr min2 PInf l.

End JS.

Import JS.

Declare Scope js_scope.
Delimit Scope js_scope with js.
Bind Scope js_scope with number.
Infix "+" := add : js_scope.
Infix "-" := sub : js_scope.
Infix "*" := mul : js_scope.
Infix "/" := div : js_scope.
Infix "<" := lt : js_scope.
Infix ">" := gt : js_scope.
Infix "≤" := le : js_scope.
Infix "≥" := ge : js_scope.
Infix "===" := strict_eq (at level 70, no associativity) : js_scope.
Infix "!==" := strict_ne (at level 70, no associativity) : js_scope.

(** ** Data and configuration *)

Definition LABOR_COST_PER_HOUR : number := num 20.
Definition MAX_LABOUR : nat := 10.

(** An entry of [PRODUCTION_SCHEDULES]; [production[i]] is the total output
    of [i] chefs. *)
Module Schedule.
Record t : Type := mk {
  name : string;
  description : string;
  fixedCost : Qc;
  icon : string;
  production : list Qc;
}.
End Schedule.

Definition table (l : list Z) : list Qc := Qc_of_Z <$> l.

Definition PRODUCTION_SCHEDULES : list Schedule.t := [
  Schedule.mk "Standard Oven"
    "A reliable, small pizza oven. Good for starting out."
    (Qc_of_Z 100) "🔥"
    (table [0; 10; 25; 45; 60; 70; 75; 77; 78; 78; 75]%Z);
  Schedule.mk "Conveyor Belt Oven"
    "A larger, more efficient oven that streamlines the cooking process."
    (Qc_of_Z 200) "⏩"
    (table [0; 20; 50; 90; 140; 180; 210; 230; 240; 245; 248]%Z);
  Schedule.mk "Industrial Kitchen"
    "A fully-equipped industrial kitchen for maximum output."
    (Qc_of_Z 400) "🏭"
    (table [0; 30; 70; 120; 180; 250; 330; 420; 500; 560; 600]%Z)
].

(** ** The economic derivation ([economicData]) *)

Record EconomicRecord : Type := mkRecord {
  labour : nat;
  totalProduction : number;
  marginalProduct : value;
  totalRevenue : number;
  variableCost : number;
  fixedCost : number;
  totalCost : number;
  totalProfit : number;
  marginalCost : number;
  averageTotalCost : number;
}.

Global Instance EconomicRecord_eq_dec : EqDecision EconomicRecord.
Proof. solve_decision. Defined.

Section economic_data.
Variable productionSchedule : Schedule.t.
Variable price : Qc.

Let production := Schedule.production productionSchedule.

(** The callback of [Array.from({ length: MAX_LABOUR + 1 }, (_, i) => ...)]. *)
Definition dataPoint (i : nat) : EconomicRecord :=
  let numLabour := i in
  let totalProduction := or_else (index production numLabour) (num 0) in
  let marginalProduct :=
    if decide (0 < numLabour)%nat
    then Num (ToNumber (index production numLabour)
              - ToNumber (index production (numLabour - 1)))%js
    else index production numLabour in
  let totalRevenue := (totalProduction * Fin price)%js in
  let variableCost := (num (Z.of_nat numLabour) * LABOR_COST_PER_HOUR * num 8)%js in
  let fixedCost := Fin (Schedule.fixedCost productionSchedule) in
  let totalCost := (fixedCost + variableCost)%js in
  let totalProfit := (totalRevenue - totalCost)%js in
  let marginalCost :=
    if decide (ToNumber marginalProduct > num 0)%js
    then ((variableCost
           - (num (Z.of_nat numLabour) - num 1) * LABOR_COST_PER_HOUR * num 8)
          / ToNumber marginalProduct)%js
    else PInf in
  let averageTotalCost :=
    if decide (totalProduction > num 0)%js
    then (totalCost / totalProduction)%js
    else PInf in
  {| labour := numLabour;
     totalProduction := totalProduction;
     marginalProduct := marginalProduct;
     totalRevenue := totalRevenue;
     variableCost := variableCost;
     fixedCost := fixedCost;
     totalCost := totalCost;
     totalProfit := totalProfit;
     marginalCost := marginalCost;
     averageTotalCost := averageTotalCost |}.

Definition economicData : list EconomicRecord :=
  dataPoint <$> seq 0 (MAX_LABOUR + 1).
End economic_data.

(** [maxProfitData]: a left-to-right [reduce] seeded with [economicData[0]]
    that replaces the running best only on a strictly greater profit.
    [None] stands for [undefined] (the seed of an empty array). *)
Definition maxProfitData (economicData : list EconomicRecord) : option EconomicRecord :=
  init ← economicData !! 0%nat;
  Some (fold_left
          (λ max current,
             if decide (totalProfit current > totalProfit max)%js
             then current else max)
          economicData init).

(** [minAtcData]: the least average total cost among the records that
    have a finite one and a positive labour; [economicData[0]] when there
    is none. *)
Definition minAtcData (economicData : list EconomicRecord) : option EconomicRecord :=
  let validData :=
    filter (λ d, isFinite (averageTotalCost d) ∧ (0 < labour d)%nat) economicData in
  if decide (length validData = 0%nat) then economicData !! 0%nat
  else
    init ← validData !! 0%nat;
    Some (fold_left
            (λ min current,
               if decide (averageTotalCost current < averageTotalCost min)%js
               then current else min)
            validData init).

(** ** The curve chart ([Chart]) *)

Module ChartPoint.
Record t : Type := mk { x : number; y : number }.
Global Instance eq_dec : EqDecision t.
Proof. solve_decision. Defined.
Global Instance inhabited : Inhabited t := populate (mk NaN NaN).
End ChartPoint.

Module ChartDataset.
Record t : Type := mk {
  label : string;
  data : list ChartPoint.t;
  color : string;
}.
End ChartDataset.

(** The two scale closures of [Chart], with the values they capture
    ([minX], [maxX], [width]; [minY], [maxY], [height]) as parameters. *)
Section scales.
Variables minX maxX width : number.
Variables minY maxY height : number.

Definition xScale (x : number) : number :=
  if decide (maxX === minX)%js then (width / num 2)%js
  else (((x - minX) / (maxX - minX)) * width)%js.

Definition yScale (y : number) : number :=
  if decide (maxY === minY)%js then (height / num 2)%js
  else (height - ((y - minY) / (maxY - minY)) * height)%js.
End scales.

(** The scale interface [scaleValue(v, sourceLo, sourceHi, targetExtent,
    invert)]: [xScale] when [invert] is false, [yScale] when it is true. *)
Definition scaleValue (v sourceLo sourceHi targetExtent : number) (invert : bool) : number :=
  if invert then yScale sourceLo sourceHi targetExtent v
  else xScale sourceLo sourceHi targetExtent v.

(** An SVG path string, kept as its sequence of commands: [M x,y],
    [L x,y] and [C x1,y1 x2,y2 x,y]; the empty string is the empty
    sequence. *)
Inductive PathCmd : Type :=
  | M (p : ChartPoint.t)
  | L (p : ChartPoint.t)
  | C (cp1 cp2 p : ChartPoint.t).

Global Instance PathCmd_eq_dec : EqDecision PathCmd.
Proof. solve_decision. Defined.

(** The point a command draws to. *)
Definition target (c : PathCmd) : ChartPoint.t :=
  match c with
  | M p | L p | C _ _ p => p
  end.

(** A hover target: the [x], [y], [width] and [height] of a [<rect>]. *)
Module Rect.
Record t : Type := mk { x : number; y : number; width : number; height : number }.
Global Instance eq_dec : EqDecision t.
Proof. solve_decision. Defined.
End Rect.

(** [[...new Set(l)]]: the distinct entries in order of first occurrence. *)
Definition Set_of (l : list number) : list number :=
  fold_left (λ seen v, if decide (v ∈ seen) then seen else seen ++ [v]) l [].

(** [l.sort((a, b) => Number(a) - Number(b))].  With a consistent
    comparator (here: on finite numbers) the result of the engine's stable
    sort is the ordered permutation, which a merge sort that keeps [a]
    before [b] unless [a - b > 0] computes. *)
Definition sort_ascending (l : list number) : list number :=
  merge_sort (λ a b, ¬ (a - b > num 0)%js) l.

Module Chart.
Import ChartPoint.

Definition svgWidth : number := num 320.
Definition svgHeight : number := num 200.
Definition margin_top : number := num 20.
Definition margin_right : number := num 20.
Definition margin_bottom : number := num 30.
Definition margin_left : number := num 40.
Definition width : number := (svgWidth - margin_left - margin_right)%js.
Definition height : number := (svgHeight - margin_top - margin_bottom)%js.

Section chart.
Variable datasets : list ChartDataset.t.

Definition allPoints : list ChartPoint.t := datasets ≫= ChartDataset.data.
Definition yValues : list number := filter (λ v, isFinite v) (y <$> allPoints).
Definition xValues : list number := x <$> allPoints.

Definition maxY : number := Math_max (num 0 :: yValues).
Definition minY : number := Math_min (num 0 :: yValues).
Definition maxX : number := Math_max xValues.
Definition minX : number := Math_min xValues.

Definition xScale : number → number := xScale minX maxX width.
Definition yScale : number → number := yScale minY maxY height.

(** One iteration of the loop of [createSmoothPath]: the cubic segment
    from [scaledPoints[i]] to [scaledPoints[i + 1]]. *)
Definition segment (scaledPoints : list ChartPoint.t) (i : nat) : PathCmd :=
  let p0 := if decide (0 < i)%nat then scaledPoints !!! (i - 1)%nat else scaledPoints !!! i in
  let p1 := scaledPoints !!! i in
  let p2 := scaledPoints !!! (i + 1)%nat in
  let p3 := if decide (i < length scaledPoints - 2)%nat
            then scaledPoints !!! (i + 2)%nat else p2 in
  let tension := Fin (1 / 2)%Qc in
  let t1x := ((x p2 - x p0) * tension)%js in
  let t1y := ((y p2 - y p0) * tension)%js in
  let t2x := ((x p3 - x p1) * tension)%js in
  let t2y := ((y p3 - y p1) * tension)%js in
  let cp1 := mk (x p1 + t1x)%js (y p1 + t1y)%js in
  let cp2 := mk (x p2 - t2x)%js (y p2 - t2y)%js in
  C cp1 cp2 p2.

Definition createSmoothPath (points : list ChartPoint.t) : list PathCmd :=
  if decide (length points < 2)%nat then []
  else
    let scaledPoints := (λ p, mk (xScale (x p)) (yScale (y p))) <$> points in
    let path := [M (scaledPoints !!! 0%nat)] in
    if decide (length scaledPoints = 2%nat)
    then path ++ [L (scaledPoints !!! 1%nat)]
    else
      fold_left (λ path i, path ++ [segment scaledPoints i])
                (seq 0 (length scaledPoints - 1)) path.

Definition uniqueXValues : list number := sort_ascending (Set_of (x <$> allPoints)).

Definition columnWidth : number :=
  if decide (1 < length uniqueXValues)%nat
  then (xScale (uniqueXValues !!! 1%nat) - xScale (uniqueXValues !!! 0%nat))%js
  else width.

(** The invisible hover targets, one [<rect>] per distinct x-value. *)
Definition hoverTargets : list Rect.t :=
  (λ x, Rect.mk (xScale x - columnWidth / num 2)%js (num 0) columnWidth height)
    <$> uniqueXValues.
End chart.

(** The test of the split loop on the consecutive pair [p1], [p2]. *)
Definition signChange (p1 p2 : ChartPoint.t) : Prop :=
  (y p1 ≥ num 0 ∧ y p2 < num 0)%js ∨ (y p1 ≤ num 0 ∧ y p2 > num 0)%js.

Global Instance signChange_dec p1 p2 : Decision (signChange p1 p2).
Proof. unfold signChange. apply _. Defined.

(** The split of a sign-changing series (the body run for the datasets
    labelled "Marginal Product of Labour" and "Total Profit"): the pair
    ([positiveData], [negativeData]) handed to [createSmoothPath]. *)
Definition splitAtZeroCrossing (data : list ChartPoint.t)
    : list ChartPoint.t * list ChartPoint.t :=
  let positiveData := filter (λ d, y d ≥ num 0)%js data in
  let negativeData := filter (λ d, y d ≤ num 0)%js data in
  match list_find (λ i, signChange (data !!! i) (data !!! (i + 1)%nat))
                  (seq 0 (length data - 1)) with
  | Some (_, i) =>
      let p1 := data !!! i in
      let p2 := data !!! (i + 1)%nat in
      if decide (y p2 - y p1 !== num 0)%js then
        let x := (x p1 - y p1 * (x p2 - x p1) / (y p2 - y p1))%js in
        let intersectionPoint := mk x (num 0) in
        if decide (y p1 ≥ num 0)%js
        then (positiveData ++ [intersectionPoint], intersectionPoint :: negativeData)
        else (intersectionPoint :: positiveData, negativeData ++ [intersectionPoint])
      else (positiveData, negativeData)
  | None => (positiveData, negativeData)
  end.

(** The paths drawn for one dataset. *)
Definition pathSegments (datasets : list ChartDataset.t) (ds : ChartDataset.t)
    : list (list PathCmd) :=
  let isMarginalProduct := bool_decide (ChartDataset.label ds = "Marginal Product of Labour") in
  let isTotalProfit := bool_decide (ChartDataset.label ds = "Total Profit") in
  if isMarginalProduct || isTotalProfit then
    let '(positiveData, negativeData) := splitAtZeroCrossing (ChartDataset.data ds) in
    [createSmoothPath datasets positiveData; createSmoothPath datasets negativeData]
  else [createSmoothPath datasets (ChartDataset.data ds)].
End Chart.

(** The series the application charts.  A marginal product that is
    [undefined] is carried as [NaN], which is how every use of a point's
    [y] in [Chart] reads it. *)
Definition productionChartData (economicData : list EconomicRecord) : list ChartDataset.t := [
  ChartDataset.mk "Total Production"
    ((λ d, ChartPoint.mk (num (Z.of_nat (labour d))) (totalProduction d)) <$> economicData)
    "text-blue-500";
  ChartDataset.mk "Marginal Product of Labour"
    ((λ d, ChartPoint.mk (num (Z.of_nat (labour d))) (ToNumber (marginalProduct d)))
       <$> economicData)
    "text-purple-500"
].

Definition profitChartData (economicData : list EconomicRecord) : list ChartDataset.t := [
  ChartDataset.mk "Total Profit"
    ((λ d, ChartPoint.mk (num (Z.of_nat (labour d))) (totalProfit d)) <$> economicData)
    "text-green-500"
].

(** ** The scenario list ([savedScenarios]) *)

Module Scenario.
Record t : Type := mk {
  name : string;
  icon : string;
  maxProfit : number;
  optimalLabour : nat;
  priceAtSave : Qc;
  mcAtMaxProfit : number;
  atcAtMaxProfit : number;
}.
Global Instance eq_dec : EqDecision t.
Proof. solve_decision. Defined.
End Scenario.

(** [arr.findIndex(p)]: the first index whose entry satisfies [p], or [-1]. *)
Definition findIndex {A} (P : A → Prop) `{!∀ a, Decision (P a)} (arr : list A) : Z :=
  match list_find P arr with
  | Some (i, _) => Z.of_nat i
  | None => (-1)%Z
  end.

(** The updater passed to [setSavedScenarios] by [handleSaveScenario]. *)
Definition saveScenario (newScenario : Scenario.t) (prev : list Scenario.t)
    : list Scenario.t :=
  let existingIndex := findIndex (λ s, Scenario.name s = Scenario.name newScenario) prev in
  if decide (existingIndex > -1)%Z
  then
    let updated := prev in
    <[Z.to_nat existingIndex := newScenario]> updated
  else prev ++ [newScenario].

Definition newScenario (productionSchedule : Schedule.t) (price : Qc)
    (maxProfitData : EconomicRecord) : Scenario.t :=
  {| Scenario.name := Schedule.name productionSchedule;
     Scenario.icon := Schedule.icon productionSchedule;
     Scenario.maxProfit := totalProfit maxProfitData;
     Scenario.optimalLabour := labour maxProfitData;
     Scenario.priceAtSave := price;
     Scenario.mcAtMaxProfit := marginalCost maxProfitData;
     Scenario.atcAtMaxProfit := averageTotalCost maxProfitData |}.

(** [handleSaveScenario] for the selected schedule and price; [None] would
    be the failure of reading a field of an undefined [maxProfitData]. *)
Definition handleSaveScenario (productionSchedule : Schedule.t) (price : Qc)
    (savedScenarios : list Scenario.t) : option (list Scenario.t) :=
  best ← maxProfitData (economicData productionSchedule price);
  Some (saveScenario (newScenario productionSchedule price best) savedScenarios).

Definition handleClearScenarios (savedScenarios : list Scenario.t) : list Scenario.t := [].

(** The operations a user can apply to the scenario list. *)
Inductive StoreOp : Type :=
  | Save (s : Scenario.t)
  | Clear.

Definition applyOp (savedScenarios : list Scenario.t) (op : StoreOp) : list Scenario.t :=
  match op with
  | Save s => saveScenario s savedScenarios
  | Clear => handleClearScenarios savedScenarios
  end.

(** The list after a sequence of operations on the initially empty list. *)
Definition runStore (ops : list StoreOp) : list Scenario.t := fold_left applyOp ops [].

(** ** Further helpers of the JavaScript library *)

Definition Math_abs (a : number) : number :=
  match a with
  | Fin q => if decide (q < 0)%Qc then Fin (- q) else Fin q
  | PInf | NInf => PInf
  | NaN => NaN
  end.

(** [Math.pow(b, n)] for a natural exponent [n]. *)
Fixpoint Math_pow (b : number) (n : nat) : number :=
  match n with
  | O => num 1
  | S n => (b * Math_pow b n)%js
  end.

(** [Number.MAX_VALUE], the greatest finite number of the language:
    [(2^53 - 1) * 2^971].  The numbers of this development are exact, so
    a result of greater magnitude, which the language turns into an
    infinity, is kept out by hypotheses stated with this bound. *)
Definition Number_MAX_VALUE : number := num (2 ^ 1024 - 2 ^ 971).

(** A coordinate of magnitude at most [2^500]: sums, differences and
    products of two such numbers stay below [Number_MAX_VALUE]. *)
Definition moderate (v : number) : Prop :=
  (Math_abs v ≤ num (2 ^ 500))%js.

Global Instance moderate_dec (v : number) : Decision (moderate v).
Proof. unfold moderate. apply _. Defined.

(** [arr.find(p)]: the first entry that satisfies [p], or [undefined]. *)
Definition find {A} (P : A → Prop) `{!∀ a, Decision (P a)} (arr : list A) : option A :=
  snd <$> list_find P arr.

(** [arr.indexOf(v)]: the first index whose entry is strictly equal to
    [v], or [-1]. *)
Definition indexOf (arr : list number) (v : number) : Z :=
  findIndex (λ a, a === v)%js arr.

(** ** The tooltip of the curve chart ([handleMouseOver]) *)

Module TooltipPoint.
Record t : Type := mk {
  x : number;
  y : number;
  label : string;
  color : string;
  unit : string;
}.
Global Instance eq_dec : EqDecision t.
Proof. solve_decision. Defined.
End TooltipPoint.

Module Tooltip.
Record t : Type := mk {
  x : number;
  points : list TooltipPoint.t;
  svgX : number;
  svgY : number;
}.
Global Instance eq_dec : EqDecision t.
Proof. solve_decision. Defined.
End Tooltip.

Module ChartTooltip.
Section tooltip.
Variable datasets : list ChartDataset.t.

(** [datasets.map(ds => ...).filter(Boolean)]: the first point of each
    dataset at [xValue], tagged with the dataset's label and colour. *)
Definition pointsForX (unit : string) (xValue : number) : list TooltipPoint.t :=
  omap (λ ds,
          (λ point, TooltipPoint.mk (ChartPoint.x point) (ChartPoint.y point)
                      (ChartDataset.label ds) (ChartDataset.color ds) unit)
            <$> find (λ p, ChartPoint.x p === xValue)%js (ChartDataset.data ds))
       datasets.

(** The state update of [handleMouseOver]: the tooltip state after the
    pointer enters the hover target of [xValue]. *)
Definition handleMouseOver (xValue : number) (tooltip : option Tooltip.t)
    : option Tooltip.t :=
  let pointsForX := pointsForX "€" xValue in
  if decide (0 < length pointsForX)%nat then
    let yPositions := (λ p, Chart.yScale datasets (TooltipPoint.y p)) <$> pointsForX in
    let avgY := (fold_left add yPositions (num 0)
                 / num (Z.of_nat (length yPositions)))%js in
    Some (Tooltip.mk xValue pointsForX (Chart.xScale datasets xValue) avgY)
  else tooltip.

Definition handleMouseLeave (tooltip : option Tooltip.t) : option Tooltip.t := None.
End tooltip.
End ChartTooltip.

(** ** The bar chart ([BarChart]) *)

Module BarChart.
Definition svgWidth : number := num 320.
Definition svgHeight : number := num 200.
Definition margin_top : number := num 20.
Definition margin_right : number := num 20.
Definition margin_bottom : number := num 30.
Definition margin_left : number := num 40.
Definition width : number := (svgWidth - margin_left - margin_right)%js.
Definition height : number := (svgHeight - margin_top - margin_bottom)%js.

Section bar_chart.
Variable datasets : list ChartDataset.t.

Definition allPoints : list ChartPoint.t := datasets ≫= ChartDataset.data.
Definition yValues : list number :=
  filter (λ v, isFinite v) (ChartPoint.y <$> allPoints).
Definition xValues : list number :=
  sort_ascending (Set_of (ChartPoint.x <$> allPoints)).

Definition maxY : number := Math_max (num 0 :: yValues).
Definition minY : number := Math_min (num 0 :: yValues).

Definition yScale : number → number := yScale minY maxY height.

Definition bandWidth : number :=
  if decide (0 < length xValues)%nat
  then (width / num (Z.of_nat (length xValues)))%js
  else width.
Definition barPadding : number := Fin (Qc_of_Z 1 / Qc_of_Z 5)%Qc.
Definition groupWidth : number := (bandWidth * (num 1 - barPadding))%js.
Definition barWidth : number := (groupWidth / num (Z.of_nat (length datasets)))%js.

Definition getXPosition (x : number) : number :=
  let index := indexOf xValues x in
  if decide (index = -1)%Z then num 0
  else (num index * bandWidth)%js.

(** The left edge of the group of bars drawn for [x]. *)
Definition groupX (x : number) : number :=
  (getXPosition x + (bandWidth * barPadding) / num 2)%js.

(** The bar of the [i]-th dataset in the group of [x]: [None] when the
    dataset has no point at [x] (nothing is drawn). *)
Definition bar (x : number) (i : nat) (ds : ChartDataset.t) : option Rect.t :=
  point ← find (λ d, ChartPoint.x d === x)%js (ChartDataset.data ds);
  let barY := if decide (ChartPoint.y point ≥ num 0)%js
              then yScale (ChartPoint.y point) else yScale (num 0) in
  let barHeight := Math_abs (yScale (ChartPoint.y point) - yScale (num 0))%js in
  Some (Rect.mk (num (Z.of_nat i) * barWidth)%js barY barWidth barHeight).

(** The groups of bars, one per distinct x-value, each with its
    horizontal translation. *)
Definition bars : list (number * list (option Rect.t)) :=
  (λ x, (groupX x, imap (bar x) datasets)) <$> xValues.

(** The invisible hover targets, one band per distinct x-value. *)
Definition hoverTargets : list Rect.t :=
  (λ x, Rect.mk (getXPosition x) (num 0) bandWidth height) <$> xValues.
End bar_chart.
End BarChart.

(** ** The eased number display ([AnimatedNumber]) *)

Module AnimatedNumber.
Definition duration : number := num 500.

(** What one run of the frame callback [animate] leaves behind: the value
    on display, the recorded start time, and whether another frame was
    requested. *)
Record frame : Type := mkFrame {
  displayValue : number;
  startTime : option number;
  requested : bool;
}.

(** [!startTime]: true for [null], [0] and [NaN]. *)
Definition unset (startTime : option number) : bool :=
  match startTime with
  | None => true
  | Some t => negb (truthy t)
  end.

Definition animate (startValue endValue : number) (startTime : option number)
    (timestamp : number) : frame :=
  let startTime := if unset startTime then timestamp else default NaN startTime in
  let progress := (timestamp - startTime)%js in
  let percentage := Math_min [(progress / duration)%js; num 1] in
  let easedPercentage := (num 1 - Math_pow (num 1 - percentage) 3)%js in
  let currentValue := (startValue + (endValue - startValue) * easedPercentage)%js in
  if decide (progress < duration)%js
  then mkFrame currentValue (Some startTime) true
  else mkFrame endValue (Some startTime) false.
End AnimatedNumber.

(** ** The cost chart's series and the goal of the application *)




(** ** The state of the application *)

Module App.
(** The [labour] field of an economic record, as opposed to the [labour]
    of the application state. *)
Local Abbreviation recordLabour := labour.

Record state : Type := mkState {
  labour : nat;
  price : Qc;
  scheduleIndex : nat;
  savedScenarios : list Scenario.t;
}.

Definition initial : state := mkState 3 (Qc_of_Z 15) 0 [].

(** The handlers a user can trigger.  The labour slider ranges over
    [0 .. MAX_LABOUR] and the schedule buttons over the indices of
    [PRODUCTION_SCHEDULES]; [wellFormed] records those ranges. *)
Inductive event : Type :=
  | LabourChange (value : nat)
  | PriceChange (value : Qc)
  | ScheduleChange (index : nat)
  | OptimizeProduction
  | SaveScenario
  | ClearScenarios.

Definition wellFormed (e : event) : Prop :=
  match e with
  | LabourChange value => (value ≤ MAX_LABOUR)%nat
  | ScheduleChange index => (index < length PRODUCTION_SCHEDULES)%nat
  | _ => True
  end.

(** One handler run; [None] where the render would read a field of
    [undefined]. *)
Definition step (st : state) (e : event) : option state :=
  productionSchedule ← PRODUCTION_SCHEDULES !! scheduleIndex st;
  let economicData := economicData productionSchedule (price st) in
  match e with
  | LabourChange value =>
      Some (mkState value (price st) (scheduleIndex st) (savedScenarios st))
  | PriceChange value =>
      Some (mkState (labour st) value (scheduleIndex st) (savedScenarios st))
  | ScheduleChange index =>
      Some (mkState (labour st) (price st) index (savedScenarios st))
  | OptimizeProduction =>
      minAtcData ← minAtcData economicData;
      Some (mkState (recordLabour minAtcData) (price st)
                    (scheduleIndex st) (savedScenarios st))
  | SaveScenario =>
      saved ← handleSaveScenario productionSchedule (price st) (savedScenarios st);
      Some (mkState (labour st) (price st) (scheduleIndex st) saved)
  | ClearScenarios =>
      Some (mkState (labour st) (price st) (scheduleIndex st)
                    (handleClearScenarios (savedScenarios st)))
  end.

(** The states the application reaches from [initial] by well-formed
    events. *)
Inductive reachable : state → Prop :=
  | reachable_initial : reachable initial
  | reachable_step st e st' :
      reachable st → wellFormed e → step st e = Some st' → reachable st'.

(** [currentData = economicData[labour]]. *)
Definition currentData (st : state) : option EconomicRecord :=
  productionSchedule ← PRODUCTION_SCHEDULES !! scheduleIndex st;
  economicData productionSchedule (price st) !! labour st.
End App.

(** ** Sample inputs *)

Definition standardOven : Schedule.t :=
  Schedule.mk "Standard Oven"
    "A reliable, small pizza oven. Good for starting out."
    (Qc_of_Z 100) "🔥"
    (table [0; 10; 25; 45; 60; 70; 75; 77; 78; 78; 75]%Z).

(** The Standard Oven with the last entry of its table left out. *)
Definition truncatedOven : Schedule.t :=
  Schedule.mk "Standard Oven"
    "A reliable, small pizza oven. Good for starting out."
    (Qc_of_Z 100) "🔥"
    (table [0; 10; 25; 45; 60; 70; 75; 77; 78; 78]%Z).

(** The marginal-product series the application charts for the Standard
    Oven (the price does not enter it). *)
Definition standardOvenMarginalProduct : list ChartPoint.t :=
  (λ d, ChartPoint.mk (num (Z.of_nat (labour d))) (ToNumber (marginalProduct d)))
    <$> economicData standardOven (Qc_of_Z 15).

Definition point (x y : Z) : ChartPoint.t := ChartPoint.mk (num x) (num y).

(** A chart whose x-values 0, 1 and 3 are not equally spaced. *)
Definition gappedDatasets : list ChartDataset.t :=
  [ChartDataset.mk "Average Total Cost" [point 0 1; point 1 4; point 3 9] "text-amber-500"].

(** * Properties *)

(** Closed decidable goals are settled by evaluating their decision
    procedure. *)
Ltac by_computation := apply (bool_decide_unpack _); vm_compute; exact I.

(** ** Comparisons and arithmetic on finite numbers *)

Lemma isFinite_qval a : isFinite a → a = Fin (qval a).
Proof. by destruct a. Qed.

Lemma gt_Fin p q : (Fin p > Fin q)%js ↔ (q < p)%Qc.
Proof.
  unfold gt; simpl. rewrite (Qcgt_alt p q). split; congruence.
Qed.

Lemma lt_Fin p q : (Fin p < Fin q)%js ↔ (p < q)%Qc.
Proof.
  unfold lt; simpl. rewrite (Qclt_alt p q). split; congruence.
Qed.

Lemma strict_eq_Fin p q : (Fin p === Fin q)%js ↔ p = q.
Proof.
  unfold strict_eq; simpl. rewrite (Qceq_alt p q). split; congruence.
Qed.

Lemma ge_Fin p q : (Fin p ≥ Fin q)%js ↔ (q ≤ p)%Qc.
Proof.
  unfold ge; simpl. split.
  - intros [H|H].
    + apply Qclt_le_weak, (Qcgt_alt p q). congruence.
    + assert (p = q) as -> by (apply Qceq_alt; congruence). apply Qcle_refl.
  - intros [H| ->]%Qcle_lt_or_eq.
    + left. f_equal. by apply (Qcgt_alt p q).
    + right. f_equal. by apply Qceq_alt.
Qed.

Lemma le_Fin p q : (Fin p ≤ Fin q)%js ↔ (p ≤ q)%Qc.
Proof.
  unfold le; simpl. split.
  - intros [H|H].
    + apply Qclt_le_weak, Qclt_alt. congruence.
    + assert (p = q) as -> by (apply Qceq_alt; congruence). apply Qcle_refl.
  - intros [H| ->]%Qcle_lt_or_eq.
    + left. f_equal. by apply Qclt_alt.
    + right. f_equal. by apply Qceq_alt.
Qed.


Lemma strict_eq_refl a : a ≠ NaN → (a === a)%js.
Proof.
  destruct a as [p| | |]; try done.
  intros _. by apply strict_eq_Fin.
Qed.

Lemma add_Fin p q : (Fin p + Fin q)%js = Fin (p + q)%Qc.
Proof. done. Qed.

Lemma sub_Fin p q : (Fin p - Fin q)%js = Fin (p - q)%Qc.
Proof. done. Qed.

Lemma mul_Fin p q : (Fin p * Fin q)%js = Fin (p * q)%Qc.
Proof. done. Qed.

Lemma div_Fin p q : q ≠ 0%Qc → (Fin p / Fin q)%js = Fin (p / q)%Qc.
Proof. intros Hq. simpl. by rewrite decide_False. Qed.

Lemma Qcopp_lt_iff (p q : Qc) : (- p < - q)%Qc ↔ (q < p)%Qc.
Proof.
  rewrite !Qclt_nge. split; intros H Hle; apply H.
  - by apply Qcopp_le_compat.
  - apply Qcopp_le_compat in Hle. by rewrite !Qcopp_involutive in Hle.
Qed.

Lemma num_0 : num 0 = Fin 0%Qc.
Proof. unfold num. by rewrite Z2Qc_inj_0. Qed.

Lemma Qc_of_Z_160 (z : Z) :
  (Qc_of_Z z * Qc_of_Z 20 * Qc_of_Z 8)%Qc = Qc_of_Z (z * 160).
Proof. rewrite <- !Z2Qc_inj_mul. f_equal. lia. Qed.

(** ** The economic records *)

Section economic_props.
Variable s : Schedule.t.
Variable price : Qc.

Abbreviation production := (Schedule.production s).
Abbreviation record := (dataPoint s price).

Lemma economicData_length : length (economicData s price) = S MAX_LABOUR.
Proof. unfold economicData. by rewrite length_fmap, length_seq, Nat.add_1_r. Qed.

Lemma economicData_lookup i r :
  economicData s price !! i = Some r ↔ (i ≤ MAX_LABOUR)%nat ∧ r = record i.
Proof.
  unfold economicData. rewrite list_lookup_fmap, fmap_Some. split.
  - intros (j & [-> Hj]%lookup_seq & ->). split; [lia | done].
  - intros [Hi ->]. exists i. split; [|done]. apply lookup_seq. lia.
Qed.

Lemma economicData_elem r :
  r ∈ economicData s price ↔ ∃ i, (i ≤ MAX_LABOUR)%nat ∧ r = record i.
Proof.
  rewrite list_elem_of_lookup. by setoid_rewrite economicData_lookup.
Qed.

Lemma labour_dataPoint i : labour (record i) = i.
Proof. done. Qed.

Lemma totalProduction_dataPoint i :
  totalProduction (record i) = Fin (default 0%Qc (production !! i)).
Proof.
  change (totalProduction (record i)) with (or_else (index production i) (num 0)).
  unfold index. destruct (production !! i) as [q|]; simpl; [|apply num_0].
  case_bool_decide as Hq; [done|].
  rewrite num_0. f_equal. symmetry. by destruct (decide (q = 0%Qc)).
Qed.

Lemma variableCost_dataPoint i :
  variableCost (record i) = num (Z.of_nat i * 160).
Proof.
  change (variableCost (record i))
    with (num (Z.of_nat i) * LABOR_COST_PER_HOUR * num 8)%js.
  unfold LABOR_COST_PER_HOUR, num. by rewrite !mul_Fin, Qc_of_Z_160.
Qed.

Lemma totalCost_dataPoint i :
  totalCost (record i)
  = Fin (Schedule.fixedCost s + Qc_of_Z (Z.of_nat i * 160))%Qc.
Proof.
  change (totalCost (record i))
    with (Fin (Schedule.fixedCost s) + variableCost (record i))%js.
  by rewrite variableCost_dataPoint.
Qed.

Lemma totalProfit_dataPoint i :
  totalProfit (record i)
  = Fin (default 0%Qc (production !! i) * price
         - (Schedule.fixedCost s + Qc_of_Z (Z.of_nat i * 160)))%Qc.
Proof.
  change (totalProfit (record i))
    with (totalProduction (record i) * Fin price - totalCost (record i))%js.
  by rewrite totalProduction_dataPoint, totalCost_dataPoint.
Qed.

Lemma marginalProduct_dataPoint i :
  marginalProduct (record i)
  = if decide (0 < i)%nat
    then Num (ToNumber (index production i) - ToNumber (index production (i - 1)))%js
    else index production i.
Proof. done. Qed.


(** Where the table has both entries, the marginal product is the
    difference of consecutive total productions. *)
Lemma marginalProduct_in_range i :
  (0 < i < length production)%nat →
  marginalProduct (record i)
  = Num (totalProduction (record i) - totalProduction (record (i - 1)))%js.
Proof.
  intros [Hi Hlen]. rewrite marginalProduct_dataPoint, !totalProduction_dataPoint.
  rewrite decide_True by done. unfold index.
  destruct (lookup_lt_is_Some_2 production i) as [q ->]; [done|].
  destruct (lookup_lt_is_Some_2 production (i - 1)) as [q' ->]; [lia|].
  done.
Qed.

Lemma marginalProduct_first :
  (0 < length production)%nat →
  marginalProduct (record 0) = Num (totalProduction (record 0)).
Proof.
  intros Hlen. rewrite marginalProduct_dataPoint, totalProduction_dataPoint.
  simpl. unfold index.
  by destruct (lookup_lt_is_Some_2 production 0) as [q ->].
Qed.


End economic_props.

(** The worked example: Standard Oven, price 15, labour 3. *)
Example standardOven_labour_3 :
  economicData standardOven (Qc_of_Z 15) !! 3%nat
  = Some {| labour := 3;
            totalProduction := num 45;
            marginalProduct := Num (num 20);
            totalRevenue := num 675;
            variableCost := num 480;
            fixedCost := num 100;
            totalCost := num 580;
            totalProfit := num 95;
            marginalCost := num 8;
            averageTotalCost := Fin (Qc_of_Z 580 / Qc_of_Z 45)%Qc |}.
Proof. by_computation. Qed.





(** Every table of the catalog has an entry for each labour level from 0
    to [MAX_LABOUR]. *)
Lemma catalog_tables_complete (s : Schedule.t) :
  s ∈ PRODUCTION_SCHEDULES → length (Schedule.production s) = S MAX_LABOUR.
Proof.
  unfold PRODUCTION_SCHEDULES. rewrite !elem_of_cons, elem_of_nil.
  intros [->|[->|[->|[]]]]; reflexivity.
Qed.

(** C1.  For every capital configuration of the catalog, every price and
    every labour level [i] from 0 to [MAX_LABOUR], the record at [i]
    carries the table entry at [i] as its total production (0 would
    stand in for an entry out of the table's range); its marginal product
    is that total production at labour 0, and for [i >= 1] the total
    production at [i] minus the total production of the record at
    [i - 1]. *)
Theorem marginalProduct_consecutive_difference (s : Schedule.t) (price : Qc) (i : nat) :
  s ∈ PRODUCTION_SCHEDULES → (i ≤ MAX_LABOUR)%nat →
  ∃ r, economicData s price !! i = Some r
       ∧ totalProduction r = Fin (default 0%Qc (Schedule.production s !! i))
       ∧ (i = 0%nat → marginalProduct r = Num (totalProduction r))
       ∧ ((1 ≤ i)%nat →
          ∃ prev, economicData s price !! (i - 1)%nat = Some prev
                  ∧ marginalProduct r
                    = Num (totalProduction r - totalProduction prev)%js).
Proof.
  intros Hs%catalog_tables_complete Hi. exists (dataPoint s price i).
  split; [by apply economicData_lookup|].
  split; [apply totalProduction_dataPoint|]. split.
  - intros ->. apply marginalProduct_first. rewrite Hs. lia.
  - intros Hpos. exists (dataPoint s price (i - 1)). split.
    + apply economicData_lookup. split; [lia|done].
    + apply marginalProduct_in_range. rewrite Hs. lia.
Qed.

Lemma marginalProduct_consecutive_difference_witness :
  ∃ r prev,
    economicData standardOven (Qc_of_Z 15) !! 3%nat = Some r
    ∧ economicData standardOven (Qc_of_Z 15) !! 2%nat = Some prev
    ∧ marginalProduct r = Num (totalProduction r - totalProduction prev)%js.
Proof.
  destruct (marginalProduct_consecutive_difference standardOven (Qc_of_Z 15) 3)
    as (r & Hr & _ & _ & Hdiff); [apply list_elem_of_here|unfold MAX_LABOUR; lia|].
  destruct Hdiff as (prev & Hprev & Hmp); [lia|].
  exists r, prev. split; [exact Hr|]. split; [exact Hprev|exact Hmp].
Defined.

(** Outside the catalog.  A table that lacked the entry for labour 10
    would get total production 0 there (the missing entry defaults to 0)
    but the marginal product [NaN], which subtracts the raw table entries
    without the default.  No schedule of [PRODUCTION_SCHEDULES] is such a
    table ([catalog_tables_complete]). *)
Remark marginalProduct_missing_entry :
  ∃ r9 r10,
    economicData truncatedOven (Qc_of_Z 15) !! 9%nat = Some r9
    ∧ economicData truncatedOven (Qc_of_Z 15) !! 10%nat = Some r10
    ∧ totalProduction r9 = num 78
    ∧ totalProduction r10 = num 0
    ∧ (totalProduction r10 - totalProduction r9)%js = num (-78)
    ∧ marginalProduct r10 = Num NaN.
Proof.
  eexists _, _. split; [reflexivity|]. split; [reflexivity|].
  repeat split; by_computation.
Qed.

(** ** A left-to-right scan that keeps the first best entry *)

Section first_best.
Context {A : Type} (key : A → Qc) (P : A → Prop) (step : A → A → A).

(** On the entries of interest, [step] replaces the running best exactly
    when the current entry has a strictly greater key. *)
Hypothesis step_spec : ∀ best current,
  P best → P current →
  step best current = if decide (key best < key current)%Qc then current else best.

Lemma fold_left_first_max (l : list A) (init : A) :
  P init → Forall P l →
  let m := fold_left step l init in
  P m
  ∧ (key init ≤ key m)%Qc
  ∧ (∀ a, a ∈ l → (key a ≤ key m)%Qc)
  ∧ (m = init
     ∨ ∃ i, l !! i = Some m
            ∧ (key init < key m)%Qc
            ∧ ∀ j a, (j < i)%nat → l !! j = Some a → (key a < key m)%Qc).
Proof.
  intros Hinit. induction l as [|a l IH] using rev_ind; intros Hl; simpl.
  { repeat split; [done|apply Qcle_refl| |by left]. by intros a ?%elem_of_nil. }
  apply Forall_app in Hl as [Hl Ha%Forall_inv].
  destruct (IH Hl) as (Hm & Hle & Hall & Hpos). clear IH.
  rewrite fold_left_app. simpl. set (m := fold_left step l init) in *.
  rewrite step_spec by done. case_decide as Hlt.
  - split; [done|]. split; [by eapply Qclt_le_weak, Qcle_lt_trans|]. split.
    + intros b [Hb| ->%list_elem_of_singleton]%elem_of_app; [|apply Qcle_refl].
      eapply Qclt_le_weak, Qcle_lt_trans; [by apply Hall|done].
    + right. exists (length l). split; [by apply list_lookup_middle|].
      split; [by eapply Qcle_lt_trans|].
      intros j b Hj Hb. rewrite lookup_app_l in Hb by done.
      eapply Qcle_lt_trans; [|done]. eapply Hall, list_elem_of_lookup_2, Hb.
  - apply Qcnot_lt_le in Hlt. split; [done|]. split; [done|]. split.
    + by intros b [Hb| ->%list_elem_of_singleton]%elem_of_app; [apply Hall|].
    + destruct Hpos as [?|(i & Hi & Hgt & Hbefore)]; [by left|right].
      exists i. split; [by apply lookup_app_l_Some|]. split; [done|].
      intros j b Hj Hb. apply (Hbefore j b Hj).
      rewrite lookup_app_l in Hb; [done|].
      apply lookup_lt_Some in Hi. lia.
Qed.
End first_best.

(** [maxProfitData] on any non-empty sequence of records with finite
    profits: the result sits at an index [i], no record has a greater
    profit, and no record before [i] has an equal one. *)
Lemma maxProfitData_spec (data : list EconomicRecord) :
  data ≠ [] →
  Forall (λ r, isFinite (totalProfit r)) data →
  ∃ m i, maxProfitData data = Some m
         ∧ data !! i = Some m
         ∧ (∀ r, r ∈ data → (totalProfit m ≥ totalProfit r)%js)
         ∧ (∀ j r, data !! j = Some r →
                   (totalProfit r === totalProfit m)%js → (i ≤ j)%nat).
Proof.
  intros Hne Hfin. destruct data as [|r0 rest]; [done|]. clear Hne.
  set (step := λ max current : EconomicRecord,
        if decide (totalProfit current > totalProfit max)%js then current else max).
  remember (r0 :: rest) as data eqn:Hdata.
  assert (maxProfitData data = Some (fold_left step data r0)) as Hmax
    by (by subst data).
  assert (data !! 0%nat = Some r0) as H0 by (by subst data).
  clear Hdata.
  set (key := λ r : EconomicRecord, qval (totalProfit r)).
  set (fin := λ r : EconomicRecord, isFinite (totalProfit r) : Prop).
  assert (∀ r, fin r → totalProfit r = Fin (key r)) as Hkey
    by (intros r Hr; by apply isFinite_qval).
  assert (∀ r, r ∈ data → fin r) as Hfin' by (by apply Forall_forall).
  destruct (fold_left_first_max key fin step) with (l := data) (init := r0)
    as (Hm & _ & Hall & Hpos);
    [|eapply Hfin', list_elem_of_lookup_2, H0|exact Hfin|].
  { intros best current Hb Hc. unfold step.
    rewrite (Hkey _ Hb), (Hkey _ Hc).
    destruct (decide (key best < key current)%Qc) as [Hlt|Hlt].
    - rewrite decide_True; [done|]. by apply gt_Fin.
    - rewrite decide_False; [done|]. by rewrite gt_Fin. }
  set (m := fold_left step data r0) in *.
  assert (∀ r, r ∈ data → (totalProfit m ≥ totalProfit r)%js) as Hge.
  { intros r Hr. rewrite (Hkey _ Hm), (Hkey _ (Hfin' _ Hr)).
    apply ge_Fin. by apply Hall. }
  destruct Hpos as [Heq|(i & Hi & _ & Hbefore)].
  - exists m, 0%nat. split; [done|]. split; [by rewrite Heq|].
    split; [done|]. intros; lia.
  - exists m, i. split; [done|]. split; [done|]. split; [done|].
    intros j r Hj Heq. destruct (decide (i ≤ j)%nat) as [|Hji]; [done|].
    exfalso. pose proof (list_elem_of_lookup_2 _ _ _ Hj) as Hr.
    rewrite (Hkey _ Hm), (Hkey _ (Hfin' _ Hr)) in Heq.
    apply strict_eq_Fin in Heq.
    by apply (Qclt_not_eq _ _ (Hbefore j r ltac:(lia) Hj)).
Qed.

(** [minAtcData] on any sequence of records. *)
Lemma minAtcData_spec (data : list EconomicRecord) :
  let valid := λ r : EconomicRecord,
    r ∈ data ∧ (0 < labour r)%nat ∧ isFinite (averageTotalCost r) in
  ((∃ r, valid r) →
     ∃ m, minAtcData data = Some m
          ∧ valid m
          ∧ ∀ r, valid r → (averageTotalCost m ≤ averageTotalCost r)%js)
  ∧ ((∀ r, ¬ valid r) → minAtcData data = data !! 0%nat).
Proof.
  intros valid.
  set (validData :=
         filter (λ d, isFinite (averageTotalCost d) ∧ (0 < labour d)%nat) data).
  set (step := λ min current : EconomicRecord,
        if decide (averageTotalCost current < averageTotalCost min)%js
        then current else min).
  assert (minAtcData data
          = match validData with
            | [] => data !! 0%nat
            | v0 :: _ => Some (fold_left step validData v0)
            end) as ->.
  { unfold minAtcData. fold validData. by destruct validData. }
  assert (∀ r, r ∈ validData ↔ valid r) as Hvalid.
  { intros r. unfold validData, valid. rewrite list_elem_of_filter. tauto. }
  clearbody validData. destruct validData as [|v0 rest].
  { split; [|done]. intros [r Hr%Hvalid]. by apply elem_of_nil in Hr. }
  split.
  2:{ intros Hnone. destruct (Hnone v0). apply Hvalid, list_elem_of_here. }
  intros _. eexists. split; [reflexivity|].
  set (key := λ r : EconomicRecord, (- qval (averageTotalCost r))%Qc).
  set (fin := λ r : EconomicRecord, isFinite (averageTotalCost r) : Prop).
  assert (Forall fin (v0 :: rest)) as Hfin.
  { apply Forall_forall. intros r Hr%Hvalid. apply Hr. }
  destruct (fold_left_first_max key fin step) with (l := v0 :: rest) (init := v0)
    as (Hm & _ & Hall & Hpos); [|exact (Forall_inv Hfin)|exact Hfin|].
  { intros best current Hb%isFinite_qval Hc%isFinite_qval. unfold step.
    rewrite Hb, Hc. unfold key. simpl.
    destruct (decide (- qval (averageTotalCost best)
                      < - qval (averageTotalCost current))%Qc) as [Hlt|Hlt].
    - rewrite decide_True; [done|]. by apply lt_Fin, Qcopp_lt_iff.
    - rewrite decide_False; [done|]. by rewrite lt_Fin, <- Qcopp_lt_iff. }
  set (m := fold_left step (v0 :: rest) v0) in *.
  assert (m ∈ v0 :: rest) as Hin.
  { destruct Hpos as [Heq|(i & Hi & _)].
    - rewrite Heq. apply list_elem_of_here.
    - eapply list_elem_of_lookup_2, Hi. }
  split; [by apply Hvalid|].
  intros r Hr. pose proof Hr as Hr'%Hvalid. apply Hall in Hr'.
  destruct Hr as (_ & _ & Hfr%isFinite_qval).
  apply isFinite_qval in Hm. rewrite Hm, Hfr. apply le_Fin.
  apply Qcopp_le_compat in Hr'. unfold key in Hr'.
  by rewrite !Qcopp_involutive in Hr'.
Qed.

Lemma economicData_nonempty (s : Schedule.t) (price : Qc) : economicData s price ≠ [].
Proof.
  intros Hnil. pose proof (economicData_length s price) as Hlen.
  by rewrite Hnil in Hlen.
Qed.

Lemma economicData_first (s : Schedule.t) (price : Qc) :
  economicData s price !! 0%nat = Some (dataPoint s price 0).
Proof. apply economicData_lookup. split; [unfold MAX_LABOUR; lia|done]. Qed.

(** C2.  The selected record is one of the sequence, its total profit is
    at least that of every record, and among the records with that same
    total profit it has the lowest labour. *)
Theorem maxProfitData_first_maximum (s : Schedule.t) (price : Qc) :
  ∃ m, maxProfitData (economicData s price) = Some m
       ∧ m ∈ economicData s price
       ∧ (∀ r, r ∈ economicData s price → (totalProfit m ≥ totalProfit r)%js)
       ∧ (∀ r, r ∈ economicData s price →
               (totalProfit r === totalProfit m)%js → (labour m ≤ labour r)%nat).
Proof.
  destruct (maxProfitData_spec (economicData s price))
    as (m & i & Hm & Hi & Hmax & Hfirst).
  { apply economicData_nonempty. }
  { apply Forall_forall. intros r (j & _ & ->)%economicData_elem.
    by rewrite totalProfit_dataPoint. }
  exists m. split; [done|]. split; [by eapply list_elem_of_lookup_2|].
  split; [done|]. intros r [j Hj]%list_elem_of_lookup Heq.
  specialize (Hfirst j r Hj Heq).
  apply economicData_lookup in Hi as [_ ->].
  apply economicData_lookup in Hj as [_ ->].
  by rewrite !labour_dataPoint.
Qed.

(** C8.  [minAtcData] returns a record.  If some record has a positive
    labour and a finite average total cost, the returned record is such a
    record and its average total cost is at most that of every such
    record; if there is none, the returned record is the first record of
    the sequence, the one of labour 0. *)
Theorem minAtcData_least_or_fallback (s : Schedule.t) (price : Qc) :
  let data := economicData s price in
  let valid := λ r : EconomicRecord,
    r ∈ data ∧ (0 < labour r)%nat ∧ isFinite (averageTotalCost r) in
  ∃ m, minAtcData data = Some m
       ∧ ((∃ r, valid r) →
            valid m ∧ ∀ r, valid r → (averageTotalCost m ≤ averageTotalCost r)%js)
       ∧ ((∀ r, ¬ valid r) → data !! 0%nat = Some m ∧ labour m = 0%nat).
Proof.
  intros data valid.
  destruct (minAtcData_spec data) as [Hsome Hnone]. fold valid in Hsome, Hnone.
  destruct (decide (Exists (λ r, (0 < labour r)%nat ∧ isFinite (averageTotalCost r)) data))
    as [Hex|Hex].
  - apply Exists_exists in Hex as (r & Hr & Hpos & Hfin).
    destruct Hsome as (m & Hm & Hvm & Hleast); [by exists r|].
    exists m. split; [done|]. split; [done|].
    intros Hno. by destruct (Hno r).
  - assert (∀ r, ¬ valid r) as Hno.
    { intros r (Hr & Hpos & Hfin). apply Hex, Exists_exists. by exists r. }
    exists (dataPoint s price 0). rewrite (Hnone Hno).
    split; [apply economicData_first|]. split.
    + intros [r Hr]. by destruct (Hno r).
    + intros _. split; [apply economicData_first|done].
Qed.

Lemma maxProfitData_first_maximum_witness :
  ∃ m, maxProfitData (economicData standardOven (Qc_of_Z 15)) = Some m
       ∧ (totalProfit m ≥ totalProfit (dataPoint standardOven (Qc_of_Z 15) 4))%js.
Proof.
  destruct (maxProfitData_first_maximum standardOven (Qc_of_Z 15))
    as (m & Hm & _ & Hmax & _).
  exists m. split; [exact Hm|]. apply Hmax.
  apply (list_elem_of_lookup_2 _ 4%nat). reflexivity.
Defined.

Lemma minAtcData_least_or_fallback_witness :
  ∃ m, minAtcData (economicData standardOven (Qc_of_Z 15)) = Some m
       ∧ (0 < labour m)%nat
       ∧ isFinite (averageTotalCost m).
Proof.
  destruct (minAtcData_least_or_fallback standardOven (Qc_of_Z 15))
    as (m & Hm & Hsome & _).
  exists m. split; [exact Hm|]. apply Hsome.
  exists (dataPoint standardOven (Qc_of_Z 15) 1). split.
  - apply (list_elem_of_lookup_2 _ 1%nat). reflexivity.
  - split; [change (0 < 1)%nat; lia|]. vm_compute. exact I.
Defined.

(** ** The scales *)

(** C6.  On a degenerate source interval both scales return half the
    target extent, whatever the value and the extent; so
    [scaleValue(5, 3, 3, 100, false)] is 50. *)
Theorem scale_degenerate (v lo hi extent : number) (invert : bool) :
  (hi === lo)%js → scaleValue v lo hi extent invert = (extent / num 2)%js.
Proof.
  intros Heq. unfold scaleValue, xScale, yScale.
  destruct invert; by rewrite decide_True.
Qed.

Lemma scale_degenerate_witness :
  (num 3 === num 3)%js
  ∧ scaleValue (num 5) (num 3) (num 3) (num 100) false = num 50.
Proof.
  split; [by_computation|].
  rewrite (scale_degenerate (num 5) (num 3) (num 3) (num 100) false); by_computation.
Defined.

(** The extrema of a list of finite numbers that all equal [c] and
    include [c] are [c]. *)
Lemma Math_max_const (c : Qc) (l : list number) :
  Forall (λ v, v = Fin c) l → Math_max (Fin c :: l) = Fin c.
Proof.
  induction 1 as [|v l -> _ IH]; unfold Math_max in *; simpl in *.
  - done.
  - rewrite IH. unfold max2; simpl.
    by rewrite (proj1 (Qceq_alt c c) eq_refl).
Qed.

Lemma Math_min_const (c : Qc) (l : list number) :
  Forall (λ v, v = Fin c) l → Math_min (Fin c :: l) = Fin c.
Proof.
  induction 1 as [|v l -> _ IH]; unfold Math_min in *; simpl in *.
  - done.
  - rewrite IH. unfold min2; simpl.
    by rewrite (proj1 (Qceq_alt c c) eq_refl).
Qed.

(** The all-zero series: every y maps to the middle of the plot height. *)
Lemma yScale_all_zero (datasets : list ChartDataset.t) (v : number) :
  Forall (λ p, ChartPoint.y p = num 0) (Chart.allPoints datasets) →
  Chart.yScale datasets v = (Chart.height / num 2)%js.
Proof.
  intros Hzero. unfold Chart.yScale, yScale.
  assert (Forall (λ v, v = num 0) (Chart.yValues datasets)) as Hys.
  { unfold Chart.yValues. apply Forall_forall.
    intros y [_ (p & -> & Hp)%list_elem_of_fmap]%list_elem_of_filter.
    by apply (proj1 (Forall_forall _ _) Hzero). }
  unfold Chart.maxY, Chart.minY, num in *.
  rewrite (Math_max_const _ _ Hys), (Math_min_const _ _ Hys).
  rewrite decide_True; [done|]. by apply strict_eq_Fin.
Qed.

(** ** The path builder *)

Lemma fold_left_snoc_fmap {A B} (f : A → B) (l : list A) (init : list B) :
  fold_left (λ path i, path ++ [f i]) l init = init ++ (f <$> l).
Proof.
  revert init. induction l as [|a l IH]; intros init; simpl.
  - by rewrite app_nil_r.
  - by rewrite IH, <- app_assoc.
Qed.

(** With three or more points the path is the move to the first scaled
    point followed by one cubic segment per consecutive pair. *)
Lemma createSmoothPath_curves (datasets : list ChartDataset.t) (points : list ChartPoint.t) :
  (3 ≤ length points)%nat →
  let scaledPoints :=
    (λ p, ChartPoint.mk (Chart.xScale datasets (ChartPoint.x p))
                        (Chart.yScale datasets (ChartPoint.y p))) <$> points in
  Chart.createSmoothPath datasets points
  = M (scaledPoints !!! 0%nat)
      :: (Chart.segment scaledPoints <$> seq 0 (length points - 1)).
Proof.
  intros Hlen scaledPoints. unfold Chart.createSmoothPath.
  fold scaledPoints.
  assert (length scaledPoints = length points) as Hsl
    by (unfold scaledPoints; by rewrite length_fmap).
  rewrite decide_False by lia. rewrite decide_False by lia.
  by rewrite fold_left_snoc_fmap, Hsl.
Qed.

(** C5.  Fewer than two points give the empty path; exactly two give the
    move to the first scaled point and one straight line to the second;
    three or more give a path that starts at the scaled first point, ends
    at the scaled last point, and consists of cubic segments in between. *)
Theorem createSmoothPath_shape (datasets : list ChartDataset.t) (points : list ChartPoint.t) :
  let scale := λ p, ChartPoint.mk (Chart.xScale datasets (ChartPoint.x p))
                                  (Chart.yScale datasets (ChartPoint.y p)) in
  let path := Chart.createSmoothPath datasets points in
  ((length points < 2)%nat → path = [])
  ∧ (∀ a b, points = [a; b] → path = [M (scale a); L (scale b)])
  ∧ (∀ first final,
       (3 ≤ length points)%nat →
       head points = Some first → last points = Some final →
       head path = Some (M (scale first))
       ∧ target <$> last path = Some (scale final)
       ∧ length path = length points
       ∧ Forall (λ c, ∃ cp1 cp2 p, c = C cp1 cp2 p) (tail path)).
Proof.
  intros scale path. split; [|split].
  - intros Hlen. unfold path, Chart.createSmoothPath. by rewrite decide_True.
  - intros a b ->. done.
  - intros first final Hlen Hfirst Hfinal. subst path.
    rewrite createSmoothPath_curves by done. fold scale.
    set (scaledPoints := scale <$> points).
    assert (length scaledPoints = length points) as Hsl
      by (unfold scaledPoints; by rewrite length_fmap).
    split; [|split; [|split]].
    + simpl. do 2 f_equal. unfold scaledPoints.
      rewrite (list_lookup_total_fmap scale points 0) by lia. f_equal.
      apply list_lookup_total_correct. by rewrite <- head_lookup.
    + replace (length points - 1)%nat with (S (length points - 2)) by lia.
      rewrite seq_S, fmap_app. simpl.
      change (M ?c :: ?l ++ [?d]) with ((M c :: l) ++ [d]).
      rewrite last_snoc. simpl. f_equal.
      replace (length points - 2 + 1)%nat with (pred (length points)) by lia.
      unfold scaledPoints.
      rewrite (list_lookup_total_fmap scale points (pred (length points))) by lia.
      f_equal. apply list_lookup_total_correct. by rewrite <- last_lookup.
    + simpl. rewrite length_fmap, length_seq. lia.
    + simpl. apply Forall_fmap, Forall_forall. intros i _. simpl.
      unfold Chart.segment. eauto.
Qed.

Lemma createSmoothPath_shape_witness :
  let path := Chart.createSmoothPath gappedDatasets [point 0 1; point 1 4; point 3 9] in
  head path = Some (M (ChartPoint.mk (num 0) (Fin (Qc_of_Z 400 / Qc_of_Z 3)%Qc)))
  ∧ target <$> last path = Some (ChartPoint.mk (num 260) (num 0)).
Proof.
  intros path.
  destruct (createSmoothPath_shape gappedDatasets [point 0 1; point 1 4; point 3 9])
    as (_ & _ & Hlong).
  destruct (Hlong (point 0 1) (point 3 9)) as (Hhead & Hlast & _);
    [simpl; lia|reflexivity|reflexivity|].
  split.
  - etrans; [exact Hhead|]. by_computation.
  - etrans; [exact Hlast|]. by_computation.
Defined.

(** ** The zero-crossing split *)



(** The worked example: the points (0, 5), (1, -3) cross at x = 0.625. *)
Lemma splitAtZeroCrossing_example :
  Chart.splitAtZeroCrossing [point 0 5; point 1 (-3)]
  = ([point 0 5; ChartPoint.mk (Fin (Qc_of_Z 5 / Qc_of_Z 8)%Qc) (num 0)],
     [ChartPoint.mk (Fin (Qc_of_Z 5 / Qc_of_Z 8)%Qc) (num 0); point 1 (-3)]).
Proof. by_computation. Qed.

(** C4, at a series that rises from exactly zero.  The first pair of the
    Standard Oven's marginal-product series is (0, 0), (1, 10): the loop
    accepts it through its second test ([p1.y <= 0] and [p2.y > 0], a
    crossing into the positive side) and stops there, but because
    [p1.y >= 0] also holds the interpolated point (0, 0) is appended to
    [positiveData], after (9, 0), and prepended to [negativeData], as for
    a crossing into the negative side.  The same happens on the two-point
    series (0, 0), (1, 10). *)
Theorem splitAtZeroCrossing_rising_from_zero :
  let data := standardOvenMarginalProduct in
  let origin := point 0 0 in
  (ChartDataset.data <$> productionChartData (economicData standardOven (Qc_of_Z 15)) !! 1%nat)
    = Some data
  ∧ data !! 0%nat = Some origin
  ∧ data !! 1%nat = Some (point 1 10)
  ∧ ((ChartPoint.y origin ≤ num 0)%js ∧ (ChartPoint.y (point 1 10) > num 0)%js)
  ∧ Chart.splitAtZeroCrossing data
    = ([origin; point 1 10; point 2 15; point 3 20; point 4 15; point 5 10;
        point 6 5; point 7 2; point 8 1; point 9 0; origin],
       [origin; origin; point 9 0; point 10 (-3)])
  ∧ Chart.splitAtZeroCrossing [origin; point 1 10]
    = ([origin; point 1 10; origin], [origin; origin]).
Proof.
  intros data origin. split; [reflexivity|].
  repeat split; by_computation.
Qed.

(** ** The hover targets *)

Lemma Set_of_fold (l seen : list number) :
  NoDup seen →
  let r := fold_left (λ seen v, if decide (v ∈ seen) then seen else seen ++ [v]) l seen in
  NoDup r ∧ ∀ v, v ∈ r ↔ v ∈ seen ∨ v ∈ l.
Proof.
  revert seen. induction l as [|a l IH]; intros seen Hnd; simpl.
  - split; [done|]. intros v. rewrite elem_of_nil. tauto.
  - destruct (decide (a ∈ seen)) as [Ha|Ha].
    + destruct (IH seen Hnd) as [Hnd' Hin]. split; [done|].
      intros v. rewrite Hin, elem_of_cons. split; [tauto|].
      intros [?|[->|?]]; auto.
    + destruct (IH (seen ++ [a])) as [Hnd' Hin].
      { apply NoDup_app. split; [done|]. split; [|apply NoDup_singleton].
        intros v Hv ->%list_elem_of_singleton. done. }
      split; [done|]. intros v.
      rewrite Hin, elem_of_app, list_elem_of_singleton, elem_of_cons. tauto.
Qed.

Lemma NoDup_Set_of (l : list number) : NoDup (Set_of l).
Proof. apply (Set_of_fold l []), NoDup_nil_2. Qed.

Lemma elem_of_Set_of (l : list number) (v : number) : v ∈ Set_of l ↔ v ∈ l.
Proof.
  destruct (Set_of_fold l [] (NoDup_nil_2)) as [_ Hin].
  unfold Set_of. rewrite Hin, elem_of_nil. tauto.
Qed.

Lemma elem_of_uniqueXValues (datasets : list ChartDataset.t) (v : number) :
  v ∈ Chart.uniqueXValues datasets ↔ v ∈ Chart.xValues datasets.
Proof.
  unfold Chart.uniqueXValues, sort_ascending, Chart.xValues.
  by rewrite merge_sort_Permutation, elem_of_Set_of.
Qed.

Lemma NoDup_uniqueXValues (datasets : list ChartDataset.t) :
  NoDup (Chart.uniqueXValues datasets).
Proof.
  unfold Chart.uniqueXValues, sort_ascending.
  rewrite merge_sort_Permutation. apply NoDup_Set_of.
Qed.

(** The extrema of a non-empty list of finite numbers are finite bounds
    of the list. *)
Lemma Math_min_finite (l : list number) :
  l ≠ [] → Forall (λ v, isFinite v) l →
  ∃ q, Math_min l = Fin q ∧ ∀ v, v ∈ l → (q ≤ qval v)%Qc.
Proof.
  intros Hne Hfin. induction Hfin as [|v l Hv Hfin IH]; [done|]. clear Hne.
  apply isFinite_qval in Hv. rewrite Hv. unfold Math_min in *. simpl.
  destruct l as [|w l].
  - exists (qval v). split; [done|].
    intros ? ->%list_elem_of_singleton. apply Qcle_refl.
  - destruct IH as (q & -> & Hq); [done|]. unfold min2. simpl.
    destruct (qval v ?= q)%Qc eqn:Hcmp.
    + apply Qceq_alt in Hcmp. exists (qval v). split; [done|].
      intros ? [->|Hin]%elem_of_cons; [apply Qcle_refl|].
      rewrite Hcmp. by apply Hq.
    + apply Qclt_alt in Hcmp. exists (qval v). split; [done|].
      intros ? [->|Hin]%elem_of_cons; [apply Qcle_refl|].
      eapply Qclt_le_weak, Qclt_le_trans; [done|by apply Hq].
    + apply (Qcgt_alt (qval v) q) in Hcmp. exists q. split; [done|].
      intros ? [->|Hin]%elem_of_cons; [by apply Qclt_le_weak|by apply Hq].
Qed.

Lemma Math_max_finite (l : list number) :
  l ≠ [] → Forall (λ v, isFinite v) l →
  ∃ q, Math_max l = Fin q ∧ ∀ v, v ∈ l → (qval v ≤ q)%Qc.
Proof.
  intros Hne Hfin. induction Hfin as [|v l Hv Hfin IH]; [done|]. clear Hne.
  apply isFinite_qval in Hv. rewrite Hv. unfold Math_max in *. simpl.
  destruct l as [|w l].
  - exists (qval v). split; [done|].
    intros ? ->%list_elem_of_singleton. apply Qcle_refl.
  - destruct IH as (q & -> & Hq); [done|]. unfold max2. simpl.
    destruct (qval v ?= q)%Qc eqn:Hcmp.
    + apply Qceq_alt in Hcmp. exists (qval v). split; [done|].
      intros ? [->|Hin]%elem_of_cons; [apply Qcle_refl|].
      rewrite Hcmp. by apply Hq.
    + apply Qclt_alt in Hcmp. exists q. split; [done|].
      intros ? [->|Hin]%elem_of_cons; [by apply Qclt_le_weak|by apply Hq].
    + apply (Qcgt_alt (qval v) q) in Hcmp. exists (qval v). split; [done|].
      intros ? [->|Hin]%elem_of_cons; [apply Qcle_refl|].
      eapply Qclt_le_weak, Qcle_lt_trans; [by apply Hq|done].
Qed.

Lemma Qcminus_eq_0 (p q : Qc) : (p - q)%Qc = 0%Qc → p = q.
Proof.
  intros Heq. rewrite <- (Qcplus_0_l q), <- Heq. unfold Qcminus.
  by rewrite <- Qcplus_assoc, (Qcplus_comm (- q)), Qcplus_opp_r, Qcplus_0_r.
Qed.

Lemma Qc_of_Z_2_ne_0 : Qc_of_Z 2 ≠ 0%Qc.
Proof. rewrite <- Z2Qc_inj_0. by intros ?%Z2Qc_inj. Qed.

(** [xScale] on finite arguments is finite, and linear on a
    non-degenerate interval. *)
Lemma xScale_Fin (lo hi w x : Qc) :
  ∃ q, xScale (Fin lo) (Fin hi) (Fin w) (Fin x) = Fin q
       ∧ (hi ≠ lo → q = ((x - lo) / (hi - lo) * w)%Qc).
Proof.
  unfold xScale. case_decide as Heq.
  - apply strict_eq_Fin in Heq. unfold num.
    rewrite div_Fin by apply Qc_of_Z_2_ne_0.
    eexists. split; [done|]. by intros Hne.
  - rewrite strict_eq_Fin in Heq.
    rewrite !sub_Fin, div_Fin, mul_Fin; [eauto|].
    intros Hz. by apply Heq, Qcminus_eq_0.
Qed.

Lemma gt_num_0 (q : Qc) : (Fin q > num 0)%js ↔ (0 < q)%Qc.
Proof. unfold num. by rewrite gt_Fin, Z2Qc_inj_0. Qed.

Lemma Qcminus_nonneg (p q : Qc) : (0 ≤ q - p)%Qc ↔ (p ≤ q)%Qc.
Proof. symmetry. apply Qcle_minus_iff. Qed.

Lemma Qcminus_pos (p q : Qc) : (0 < q - p)%Qc ↔ (p < q)%Qc.
Proof. symmetry. apply Qclt_minus_iff. Qed.

(** The comparator of the sort relates any two numbers one way or the
    other. *)
Lemma sort_ascending_total :
  Total (λ a b : number, ¬ (a - b > num 0)%js).
Proof.
  intros a b.
  destruct a as [p| | |], b as [q| | |];
    try (left; by_computation); try (right; by_computation).
  rewrite !sub_Fin, !gt_num_0, !Qcminus_pos.
  destruct (Qclt_le_dec q p) as [Hlt|Hle].
  - right. by apply Qcle_not_lt, Qclt_le_weak.
  - left. by apply Qcle_not_lt.
Qed.

(** On finite numbers the order of the sort is the order of the values. *)
Lemma sorted_finite (l : list number) :
  Forall (λ v, isFinite v) l →
  Sorted (λ a b : number, ¬ (a - b > num 0)%js) l →
  StronglySorted (λ a b, (qval a ≤ qval b)%Qc) l.
Proof.
  induction l as [|a l IH]; intros Hfin Hsorted; [constructor|].
  apply Forall_cons in Hfin as [Ha Hfin]. apply Sorted_inv in Hsorted as [Hsorted Hhd].
  specialize (IH Hfin Hsorted). constructor; [done|].
  destruct l as [|b l]; [constructor|].
  apply HdRel_inv in Hhd. apply Forall_cons in Hfin as [Hb _].
  apply isFinite_qval in Ha, Hb. rewrite Ha, Hb in Hhd.
  rewrite sub_Fin, gt_num_0, Qcminus_pos in Hhd.
  apply Qcnot_lt_le in Hhd.
  apply StronglySorted_inv in IH as [_ Hall].
  constructor; [done|]. eapply Forall_impl; [exact Hall|].
  intros c Hc. simpl in Hc. by etrans.
Qed.

Lemma StronglySorted_lookup_lt {A} (R : relation A) (l : list A) (i j : nat) (a b : A) :
  StronglySorted R l → l !! i = Some a → l !! j = Some b → (i < j)%nat → R a b.
Proof.
  intros Hsorted. revert i j. induction Hsorted as [|c l _ IH Hall]; intros i j Hi Hj Hlt.
  { done. }
  destruct j as [|j]; [lia|]. destruct i as [|i]; simpl in *.
  - injection Hi as ->. apply (proj1 (Forall_forall _ _) Hall).
    by eapply list_elem_of_lookup_2.
  - apply (IH i j); [done|done|lia].
Qed.

Lemma width_finite : ∃ w, Chart.width = Fin w.
Proof. by eexists. Qed.

Section hover_props.
Variable datasets : list ChartDataset.t.

Abbreviation u := (Chart.uniqueXValues datasets).
Abbreviation cw := (Chart.columnWidth datasets).
Abbreviation sx := (Chart.xScale datasets).

Hypothesis finite_xs :
  Forall (λ p, isFinite (ChartPoint.x p)) (Chart.allPoints datasets).

Lemma xValues_finite : Forall (λ v, isFinite v) (Chart.xValues datasets).
Proof. unfold Chart.xValues. by apply Forall_fmap. Qed.

Lemma uniqueXValues_finite (v : number) : v ∈ u → isFinite v.
Proof.
  intros Hv%elem_of_uniqueXValues.
  by apply (proj1 (Forall_forall _ _) xValues_finite).
Qed.

(** With a column to show, the x-range of the chart is a finite interval
    that contains every column. *)
Lemma x_range (v : number) :
  v ∈ u →
  ∃ lo hi, Chart.minX datasets = Fin lo ∧ Chart.maxX datasets = Fin hi
           ∧ ∀ a, a ∈ u → (lo ≤ qval a ≤ hi)%Qc.
Proof.
  intros Hv%elem_of_uniqueXValues.
  assert (Chart.xValues datasets ≠ []) as Hne.
  { intros Hnil. rewrite Hnil in Hv. by apply elem_of_nil in Hv. }
  destruct (Math_min_finite _ Hne xValues_finite) as (lo & Hlo & Hmin).
  destruct (Math_max_finite _ Hne xValues_finite) as (hi & Hhi & Hmax).
  exists lo, hi. split; [done|]. split; [done|].
  intros a Ha%elem_of_uniqueXValues. split; [by apply Hmin|by apply Hmax].
Qed.

Lemma xScale_column_finite (v : number) : v ∈ u → isFinite (sx v).
Proof.
  intros Hv. destruct (x_range v Hv) as (lo & hi & Hlo & Hhi & _).
  destruct width_finite as [w Hw].
  apply uniqueXValues_finite, isFinite_qval in Hv.
  unfold Chart.xScale. rewrite Hlo, Hhi, Hw, Hv.
  by destruct (xScale_Fin lo hi w (qval v)) as (q & -> & _).
Qed.

Lemma columnWidth_finite : isFinite cw.
Proof.
  unfold Chart.columnWidth. case_decide as Hlen.
  - destruct (lookup_lt_is_Some_2 u 0) as [x0 H0]; [lia|].
    destruct (lookup_lt_is_Some_2 u 1) as [x1 H1]; [lia|].
    rewrite (list_lookup_total_correct _ _ _ H0), (list_lookup_total_correct _ _ _ H1).
    apply list_elem_of_lookup_2, xScale_column_finite, isFinite_qval in H0, H1.
    by rewrite H0, H1.
  - by destruct width_finite as [w ->].
Qed.

(** Two distinct columns make the x-range non-degenerate. *)
Lemma x_range_proper (a b : number) :
  a ∈ u → b ∈ u → a ≠ b →
  ∃ lo hi, Chart.minX datasets = Fin lo ∧ Chart.maxX datasets = Fin hi ∧ hi ≠ lo.
Proof.
  intros Ha Hb Hab. destruct (x_range a Ha) as (lo & hi & Hlo & Hhi & Hrange).
  exists lo, hi. split; [done|]. split; [done|]. intros ->.
  apply Hab. rewrite (isFinite_qval a), (isFinite_qval b)
    by (by apply uniqueXValues_finite).
  f_equal. destruct (Hrange a Ha), (Hrange b Hb).
  trans lo; [|symmetry]; by apply Qcle_antisym.
Qed.

(** The columns are in strictly ascending order. *)
Lemma uniqueXValues_sorted (i j : nat) (a b : number) :
  u !! i = Some a → u !! j = Some b → (i < j)%nat → (a < b)%js.
Proof.
  intros Hi Hj Hlt.
  assert (Forall (λ v, isFinite v) u) as Hu.
  { apply Forall_forall. intros v Hv. by apply uniqueXValues_finite. }
  assert (StronglySorted (λ a b, (qval a ≤ qval b)%Qc) u) as Hsorted.
  { apply sorted_finite; [done|].
    unfold Chart.uniqueXValues, sort_ascending.
    apply (@Sorted_merge_sort _ _ _ sort_ascending_total). }
  pose proof (StronglySorted_lookup_lt _ u i j a b Hsorted Hi Hj Hlt) as Hle.
  assert (a ≠ b) as Hne.
  { intros ->. pose proof (NoDup_lookup _ _ _ _ (NoDup_uniqueXValues datasets) Hi Hj). lia. }
  pose proof (proj1 (Forall_forall _ _) Hu a (list_elem_of_lookup_2 _ _ _ Hi)) as Ha.
  pose proof (proj1 (Forall_forall _ _) Hu b (list_elem_of_lookup_2 _ _ _ Hj)) as Hb.
  apply isFinite_qval in Ha, Hb. rewrite Ha, Hb in *. cbn [qval] in Hle.
  apply lt_Fin. apply Qcle_lt_or_eq in Hle as [Hlt'|Heq]; [done|].
  destruct Hne. by rewrite Heq.
Qed.
End hover_props.

(** C7, as the code has it.  In a curve chart with finite x-values there
    is one hover target per distinct x-value of the data, the columns
    being in strictly ascending order of their x-values.  Each target
    spans the full plot height, begins half a [columnWidth] to the left of
    the scaled position of its x-value and is [columnWidth] wide, so that
    it is centred on that position.  [columnWidth] is one width for all
    targets: the plot width when there is exactly one distinct x-value,
    and otherwise the distance between the scaled positions of the two
    smallest distinct x-values, whatever the spacing of the other
    columns. *)
Theorem hoverTargets_geometry (datasets : list ChartDataset.t) :
  Forall (λ p, isFinite (ChartPoint.x p)) (Chart.allPoints datasets) →
  let u := Chart.uniqueXValues datasets in
  let cw := Chart.columnWidth datasets in
  let sx := Chart.xScale datasets in
  length (Chart.hoverTargets datasets) = length u
  ∧ NoDup u
  ∧ (∀ v, v ∈ u ↔ ∃ p, p ∈ Chart.allPoints datasets ∧ ChartPoint.x p = v)
  ∧ (∀ i j a b, u !! i = Some a → u !! j = Some b → (i < j)%nat → (a < b)%js)
  ∧ (∀ k x, u !! k = Some x →
       Chart.hoverTargets datasets !! k
       = Some (Rect.mk (sx x - cw / num 2)%js (num 0) cw Chart.height))
  ∧ (length u = 1%nat → cw = Chart.width)
  ∧ (∀ x0 x1, u !! 0%nat = Some x0 → u !! 1%nat = Some x1 →
       cw = (sx x1 - sx x0)%js
       ∧ (x0 < x1)%js
       ∧ ∀ v, v ∈ u → v = x0 ∨ (x1 ≤ v)%js).
Proof.
  intros Hfin u cw sx.
  pose proof (uniqueXValues_sorted datasets Hfin) as Hsorted. fold u in Hsorted.
  split; [|split; [|split; [|split; [done|split; [|split]]]]].
  - unfold Chart.hoverTargets. by rewrite length_fmap.
  - apply NoDup_uniqueXValues.
  - intros v. unfold u. rewrite elem_of_uniqueXValues. unfold Chart.xValues.
    rewrite list_elem_of_fmap. split; intros (p & H1 & H2); exists p; by split.
  - intros k x Hx. unfold Chart.hoverTargets. fold u.
    by rewrite list_lookup_fmap, Hx.
  - intros Hlen. unfold cw, Chart.columnWidth. fold u.
    rewrite decide_False; [done|lia].
  - intros x0 x1 H0 H1. split; [|split].
    + unfold cw, Chart.columnWidth. fold u.
      rewrite decide_True by (apply lookup_lt_Some in H1; lia).
      by rewrite (list_lookup_total_correct _ _ _ H0),
                 (list_lookup_total_correct _ _ _ H1).
    + apply (Hsorted 0%nat 1%nat); [done|done|lia].
    + intros v [k Hk]%list_elem_of_lookup.
      destruct k as [|[|k]].
      * left. congruence.
      * right. assert (v = x1) as -> by congruence.
        pose proof (uniqueXValues_finite datasets Hfin x1
                      (list_elem_of_lookup_2 _ _ _ H1)) as Hx1%isFinite_qval.
        rewrite Hx1. apply le_Fin, Qcle_refl.
      * right. pose proof (Hsorted 1%nat (S (S k)) x1 v H1 Hk) as Hlt.
        pose proof (uniqueXValues_finite datasets Hfin x1
                      (list_elem_of_lookup_2 _ _ _ H1)) as Hx1%isFinite_qval.
        pose proof (uniqueXValues_finite datasets Hfin v
                      (list_elem_of_lookup_2 _ _ _ Hk)) as Hv%isFinite_qval.
        rewrite Hx1, Hv in Hlt |- *. apply le_Fin, Qclt_le_weak, lt_Fin, Hlt. lia.
Qed.

Lemma hoverTargets_geometry_witness :
  Forall (λ p, isFinite (ChartPoint.x p)) (Chart.allPoints gappedDatasets)
  ∧ Chart.columnWidth gappedDatasets
    = (Chart.xScale gappedDatasets (num 1) - Chart.xScale gappedDatasets (num 0))%js
  ∧ Chart.hoverTargets gappedDatasets !! 2%nat
    = Some (Rect.mk (Chart.xScale gappedDatasets (num 3)
                     - Chart.columnWidth gappedDatasets / num 2)%js
                    (num 0) (Chart.columnWidth gappedDatasets) Chart.height).
Proof.
  assert (Forall (λ p, isFinite (ChartPoint.x p)) (Chart.allPoints gappedDatasets))
    as Hfin by by_computation.
  destruct (hoverTargets_geometry gappedDatasets Hfin) as (_ & _ & _ & _ & Hk & _ & Hcw).
  split; [exact Hfin|]. split.
  - apply (Hcw (num 0) (num 1)); by_computation.
  - apply (Hk 2%nat (num 3)). by_computation.
Defined.

(** C7 as stated fails where the x-values are not equally spaced.  With
    the x-values 0, 1 and 3 all three hover targets are 260/3 wide, while
    the scaled positions of the adjacent x-values 1 and 3 are 520/3
    apart. *)
Lemma hoverTargets_uneven_spacing :
  Chart.uniqueXValues gappedDatasets = [num 0; num 1; num 3]
  ∧ Rect.width <$> Chart.hoverTargets gappedDatasets
    = replicate 3 (Fin (Qc_of_Z 260 / Qc_of_Z 3)%Qc)
  ∧ (Chart.xScale gappedDatasets (num 3) - Chart.xScale gappedDatasets (num 1))%js
    = Fin (Qc_of_Z 520 / Qc_of_Z 3)%Qc
  ∧ ¬ (∀ r a b k,
         r ∈ Chart.hoverTargets gappedDatasets →
         Chart.uniqueXValues gappedDatasets !! k = Some a →
         Chart.uniqueXValues gappedDatasets !! (k + 1)%nat = Some b →
         Rect.width r
         = (Chart.xScale gappedDatasets b - Chart.xScale gappedDatasets a)%js).
Proof.
  split; [by_computation|]. split; [by_computation|]. split; [by_computation|].
  intros Hall.
  specialize (Hall (Rect.mk (Fin (Qc_of_Z 1300 / Qc_of_Z 6)%Qc) (num 0)
                            (Fin (Qc_of_Z 260 / Qc_of_Z 3)%Qc) Chart.height)
                   (num 1) (num 3) 1%nat).
  revert Hall. by_computation.
Qed.

(** ** The scenario list *)

Lemma findIndex_found {A} (P : A → Prop) `{!∀ a, Decision (P a)} (l : list A) (i : nat) (a : A) :
  l !! i = Some a → P a →
  (∀ j b, (j < i)%nat → l !! j = Some b → ¬ P b) →
  findIndex P l = Z.of_nat i.
Proof.
  intros Hi Ha Hbefore. unfold findIndex.
  assert (list_find P l = Some (i, a)) as ->; [|done].
  apply list_find_Some. split; [done|]. split; [done|].
  intros j b Hj Hlt. by eapply Hbefore.
Qed.

Lemma findIndex_absent {A} (P : A → Prop) `{!∀ a, Decision (P a)} (l : list A) :
  (∀ a, a ∈ l → ¬ P a) → findIndex P l = (-1)%Z.
Proof.
  intros Hnone. unfold findIndex.
  assert (list_find P l = None) as ->; [|done].
  apply list_find_None, Forall_forall. done.
Qed.

(** A save under a name that is not in the list appends. *)
Lemma saveScenario_fresh (new : Scenario.t) (prev : list Scenario.t) :
  (∀ old, old ∈ prev → Scenario.name old ≠ Scenario.name new) →
  saveScenario new prev = prev ++ [new].
Proof.
  intros Hfresh. unfold saveScenario.
  rewrite findIndex_absent by done. by rewrite decide_False by lia.
Qed.

(** A save under the name of the first entry that has it overwrites that
    entry. *)
Lemma saveScenario_first_match (new : Scenario.t) (prev : list Scenario.t)
    (i : nat) (old : Scenario.t) :
  prev !! i = Some old → Scenario.name old = Scenario.name new →
  (∀ j s, (j < i)%nat → prev !! j = Some s → Scenario.name s ≠ Scenario.name new) →
  saveScenario new prev = <[i := new]> prev.
Proof.
  intros Hi Hname Hbefore. unfold saveScenario.
  rewrite (findIndex_found _ prev i old) by done.
  rewrite decide_True by lia. by rewrite Nat2Z.id.
Qed.

(** In a list without repeated names the entry of a given name is the
    first of that name. *)
Lemma saveScenario_match (new : Scenario.t) (prev : list Scenario.t)
    (i : nat) (old : Scenario.t) :
  NoDup (Scenario.name <$> prev) →
  prev !! i = Some old → Scenario.name old = Scenario.name new →
  saveScenario new prev = <[i := new]> prev.
Proof.
  intros Hnd Hi Hname. apply (saveScenario_first_match new prev i old); [done..|].
  intros j s Hj Hs Hsname.
  assert (j = i); [|lia].
  apply (NoDup_lookup _ _ _ (Scenario.name new) Hnd);
    rewrite list_lookup_fmap; [by rewrite Hs; simpl; f_equal|by rewrite Hi; simpl; f_equal].
Qed.

Lemma saveScenario_names (new : Scenario.t) (prev : list Scenario.t) :
  NoDup (Scenario.name <$> prev) → NoDup (Scenario.name <$> saveScenario new prev).
Proof.
  intros Hnd.
  destruct (decide (Exists (λ old, Scenario.name old = Scenario.name new) prev))
    as [Hex|Hex].
  - apply Exists_exists in Hex as (old & [i Hi]%list_elem_of_lookup & Hname).
    rewrite (saveScenario_match new prev i old) by done.
    rewrite list_fmap_insert, list_insert_id; [done|].
    by rewrite list_lookup_fmap, Hi, <- Hname.
  - rewrite saveScenario_fresh.
    + rewrite fmap_app. apply NoDup_app. split; [done|]. split; [|apply NoDup_singleton].
      intros n (old & -> & Hold)%list_elem_of_fmap ?%list_elem_of_singleton.
      apply Hex, Exists_exists. by exists old.
    + intros old Hold Hname. apply Hex, Exists_exists. by exists old.
Qed.

Lemma applyOp_names (saved : list Scenario.t) (op : StoreOp) :
  NoDup (Scenario.name <$> saved) → NoDup (Scenario.name <$> applyOp saved op).
Proof.
  destruct op as [s|]; simpl; [apply saveScenario_names|intros _; apply NoDup_nil_2].
Qed.

Lemma runStore_names (ops : list StoreOp) : NoDup (Scenario.name <$> runStore ops).
Proof.
  unfold runStore. induction ops as [|op ops IH] using rev_ind.
  - apply NoDup_nil_2.
  - rewrite fold_left_app. simpl. by apply applyOp_names.
Qed.

(** Saving from the application always succeeds, under the name of the
    selected schedule. *)
Lemma handleSaveScenario_total (s : Schedule.t) (price : Qc) (saved : list Scenario.t) :
  ∃ new, handleSaveScenario s price saved = Some (saveScenario new saved)
         ∧ Scenario.name new = Schedule.name s
         ∧ Scenario.priceAtSave new = price.
Proof.
  destruct (maxProfitData_spec (economicData s price)) as (m & i & Hm & _).
  { apply economicData_nonempty. }
  { apply Forall_forall. intros r (j & _ & ->)%economicData_elem.
    by rewrite totalProfit_dataPoint. }
  exists (newScenario s price m). unfold handleSaveScenario. by rewrite Hm.
Qed.

(** C9.  After any sequence of saves and clears on the initially empty
    list, no two entries carry the same name.  A save under a name that is
    present overwrites that entry where it stands and leaves every other
    position and the length unchanged; a save under a new name appends;
    clearing empties the list. *)
Theorem scenario_store_upsert (ops : list StoreOp) (new : Scenario.t) :
  let saved := runStore ops in
  NoDup (Scenario.name <$> saved)
  ∧ NoDup (Scenario.name <$> saveScenario new saved)
  ∧ (∀ i old, saved !! i = Some old → Scenario.name old = Scenario.name new →
       saveScenario new saved = <[i := new]> saved
       ∧ saveScenario new saved !! i = Some new
       ∧ length (saveScenario new saved) = length saved
       ∧ ∀ j, j ≠ i → saveScenario new saved !! j = saved !! j)
  ∧ ((∀ old, old ∈ saved → Scenario.name old ≠ Scenario.name new) →
       saveScenario new saved = saved ++ [new])
  ∧ handleClearScenarios saved = [].
Proof.
  intros saved. pose proof (runStore_names ops) as Hnd. fold saved in Hnd.
  split; [done|]. split; [by apply saveScenario_names|].
  split; [|split; [apply saveScenario_fresh|done]].
  intros i old Hi Hname.
  rewrite (saveScenario_match new saved i old) by done.
  split; [done|]. split; [|split].
  - apply list_lookup_insert_eq. by eapply lookup_lt_Some.
  - apply length_insert.
  - intros j Hj. by apply list_lookup_insert_ne.
Qed.

(** Two saves under one name leave the single, later entry. *)
Lemma scenario_store_upsert_witness :
  let first := Scenario.mk "Standard Oven" "🔥" (num 160) 4 (Qc_of_Z 15) (num 16) (num 12) in
  let second := Scenario.mk "Standard Oven" "🔥" (num 460) 5 (Qc_of_Z 20) (num 16) (num 13) in
  runStore [Save first] !! 0%nat = Some first
  ∧ runStore [Save first; Save second] = [second].
Proof.
  intros first second. split; [reflexivity|].
  destruct (scenario_store_upsert [Save first] second) as (_ & _ & Hmatch & _).
  destruct (Hmatch 0%nat first) as [Hsave _]; [reflexivity|reflexivity|].
  exact Hsave.
Defined.

(** * Further properties *)

(** ** The economic records, continued *)






(** X3.  With a table of non-negative entries, raising the price never
    lowers the greatest profit. *)
Theorem maxProfit_monotone_in_price (s : Schedule.t) (p p' : Qc) (m m' : EconomicRecord) :
  Forall (λ q, 0 ≤ q)%Qc (Schedule.production s) →
  (p ≤ p')%Qc →
  maxProfitData (economicData s p) = Some m →
  maxProfitData (economicData s p') = Some m' →
  (totalProfit m ≤ totalProfit m')%js.
Proof.
  intros Hnonneg Hp Hm Hm'.
  assert (∀ price, Forall (λ r, isFinite (totalProfit r)) (economicData s price)) as Hfin.
  { intros price. apply Forall_forall. intros r (j & _ & ->)%economicData_elem.
    by rewrite totalProfit_dataPoint. }
  destruct (maxProfitData_spec (economicData s p) (economicData_nonempty s p) (Hfin p))
    as (m0 & i & Hm0 & Hi & _).
  rewrite Hm in Hm0. injection Hm0 as <-.
  destruct (maxProfitData_spec (economicData s p') (economicData_nonempty s p') (Hfin p'))
    as (m0 & j & Hm0 & Hj & Hmax & _).
  rewrite Hm' in Hm0. injection Hm0 as <-.
  apply economicData_lookup in Hi as [Hi ->].
  specialize (Hmax (dataPoint s p' i)).
  rewrite economicData_elem in Hmax. specialize (Hmax (ex_intro _ i (conj Hi eq_refl))).
  apply economicData_lookup in Hj as [_ ->].
  rewrite !totalProfit_dataPoint in *. apply ge_Fin in Hmax. apply le_Fin.
  etrans; [|exact Hmax]. unfold Qcminus. apply Qcplus_le_mono_r.
  apply Qcmult_le_mono_nonneg_l; [|done].
  destruct (Schedule.production s !! i) as [q|] eqn:Hq; simpl; [|done].
  apply list_elem_of_lookup_2 in Hq.
  by apply (proj1 (Forall_forall _ _) Hnonneg).
Qed.

Lemma maxProfit_monotone_in_price_witness :
  ∃ m m', maxProfitData (economicData standardOven (Qc_of_Z 15)) = Some m
          ∧ maxProfitData (economicData standardOven (Qc_of_Z 20)) = Some m'
          ∧ (totalProfit m ≤ totalProfit m')%js.
Proof.
  exists (dataPoint standardOven (Qc_of_Z 15) 4), (dataPoint standardOven (Qc_of_Z 20) 5).
  assert (maxProfitData (economicData standardOven (Qc_of_Z 15))
          = Some (dataPoint standardOven (Qc_of_Z 15) 4)) as H15 by by_computation.
  assert (maxProfitData (economicData standardOven (Qc_of_Z 20))
          = Some (dataPoint standardOven (Qc_of_Z 20) 5)) as H20 by by_computation.
  split; [exact H15|]. split; [exact H20|].
  apply (maxProfit_monotone_in_price standardOven (Qc_of_Z 15) (Qc_of_Z 20));
    [by_computation|by_computation|exact H15|exact H20].
Defined.





(** ** The scales, continued *)

(** The fraction of the source interval covered up to [x]. *)
Lemma fraction_mono (lo hi a b : Qc) :
  (lo < hi)%Qc → (a ≤ b)%Qc → ((a - lo) / (hi - lo) ≤ (b - lo) / (hi - lo))%Qc.
Proof.
  intros Hd%Qcminus_pos%Qcinv_pos Hab. unfold Qcdiv.
  apply Qcmult_le_mono_nonneg_r; [by apply Qclt_le_weak|].
  unfold Qcminus. by apply Qcplus_le_mono_r.
Qed.

Lemma fraction_lo (lo hi : Qc) : ((lo - lo) / (hi - lo))%Qc = 0%Qc.
Proof.
  unfold Qcdiv, Qcminus at 1. by rewrite Qcplus_opp_r, Qcmult_0_l.
Qed.

Lemma fraction_hi (lo hi : Qc) : (lo < hi)%Qc → ((hi - lo) / (hi - lo))%Qc = 1%Qc.
Proof.
  intros Hd%Qcminus_pos. unfold Qcdiv. apply Qcmult_inv_r.
  intros Hz. rewrite Hz in Hd. by apply Qclt_not_eq in Hd.
Qed.

Lemma fraction_bounds (lo hi x : Qc) :
  (lo < hi)%Qc → (lo ≤ x ≤ hi)%Qc → (0 ≤ (x - lo) / (hi - lo) ≤ 1)%Qc.
Proof.
  intros Hd [Hlo Hhi]. split.
  - rewrite <- (fraction_lo lo hi). by apply fraction_mono.
  - rewrite <- (fraction_hi lo hi) by done. by apply fraction_mono.
Qed.

Lemma half_bounds (w : Qc) : (0 ≤ w)%Qc → (0 ≤ w / Qc_of_Z 2 ≤ w)%Qc.
Proof.
  intros Hw. assert (0 < Qc_of_Z 2)%Qc as H2 by (by rewrite <- Z2Qc_inj_0, <- Z2Qc_inj_lt).
  assert (0 ≤ w / Qc_of_Z 2)%Qc as Hhalf.
  { unfold Qcdiv. apply Qcmult_nonneg_nonneg; [done|].
    by apply Qclt_le_weak, Qcinv_pos. }
  split; [done|].
  replace w with (w / Qc_of_Z 2 + w / Qc_of_Z 2)%Qc at 2.
  - rewrite <- (Qcplus_0_r (w / Qc_of_Z 2)) at 1. by apply Qcplus_le_mono_l.
  - rewrite Z2Qc_inj_2. field. by_computation.
Qed.

Lemma Qc_of_Z_nonneg (z : Z) : (0 ≤ z)%Z → (0 ≤ Qc_of_Z z)%Qc.
Proof. intros Hz. by rewrite <- Z2Qc_inj_0, <- Z2Qc_inj_le. Qed.

Lemma le_num_0 (q : Qc) : (num 0 ≤ Fin q)%js ↔ (0 ≤ q)%Qc.
Proof. unfold num. by rewrite le_Fin, Z2Qc_inj_0. Qed.

Lemma xScale_degenerate_Fin (lo w : Qc) (v : number) :
  xScale (Fin lo) (Fin lo) (Fin w) v = Fin (w / Qc_of_Z 2)%Qc.
Proof.
  unfold xScale, num. rewrite decide_True by (by apply strict_eq_Fin).
  by rewrite div_Fin by apply Qc_of_Z_2_ne_0.
Qed.

(** On a finite source interval [lo <= hi] and a non-negative extent,
    [xScale] is an order-preserving map of the finite numbers that sends
    the interval into [0, width]. *)
Lemma xScale_mono (lo hi w a b : Qc) :
  (lo ≤ hi)%Qc → (0 ≤ w)%Qc → (a ≤ b)%Qc →
  (xScale (Fin lo) (Fin hi) (Fin w) (Fin a)
   ≤ xScale (Fin lo) (Fin hi) (Fin w) (Fin b))%js.
Proof.
  intros Hlohi Hw Hab.
  destruct (decide (hi = lo)) as [->|Hne].
  { rewrite !xScale_degenerate_Fin. apply le_Fin, Qcle_refl. }
  destruct (xScale_Fin lo hi w a) as (qa & Ha & Hqa).
  destruct (xScale_Fin lo hi w b) as (qb & Hb & Hqb).
  - rewrite Ha, Hb, (Hqa Hne), (Hqb Hne). apply le_Fin.
    apply Qcmult_le_mono_nonneg_r; [done|]. apply fraction_mono; [|done].
    by destruct (Qcle_lt_or_eq _ _ Hlohi).
Qed.

Lemma xScale_bounds (lo hi w x : Qc) :
  (lo ≤ hi)%Qc → (0 ≤ w)%Qc → (lo ≤ x ≤ hi)%Qc →
  (num 0 ≤ xScale (Fin lo) (Fin hi) (Fin w) (Fin x))%js
  ∧ (xScale (Fin lo) (Fin hi) (Fin w) (Fin x) ≤ Fin w)%js.
Proof.
  intros Hlohi Hw Hx.
  destruct (decide (hi = lo)) as [->|Hne].
  - rewrite xScale_degenerate_Fin, le_num_0, le_Fin. by apply half_bounds.
  - destruct (xScale_Fin lo hi w x) as (q & -> & Hq). rewrite (Hq Hne).
    assert (lo < hi)%Qc as Hlt by (by destruct (Qcle_lt_or_eq _ _ Hlohi)).
    destruct (fraction_bounds lo hi x Hlt Hx) as [H0 H1].
    rewrite le_num_0, le_Fin. split.
    + by apply Qcmult_nonneg_nonneg.
    + rewrite <- (Qcmult_1_l w) at 2. by apply Qcmult_le_mono_nonneg_r.
Qed.

Lemma yScale_Fin (lo hi h y : Qc) :
  ∃ q, yScale (Fin lo) (Fin hi) (Fin h) (Fin y) = Fin q
       ∧ (hi ≠ lo → q = (h - (y - lo) / (hi - lo) * h)%Qc)
       ∧ (hi = lo → q = (h / Qc_of_Z 2)%Qc).
Proof.
  unfold yScale. case_decide as Heq.
  - apply strict_eq_Fin in Heq. unfold num.
    rewrite div_Fin by apply Qc_of_Z_2_ne_0.
    eexists. split; [done|]. split; [by intros Hne|done].
  - rewrite strict_eq_Fin in Heq.
    rewrite !sub_Fin, div_Fin, mul_Fin, sub_Fin.
    + eexists. split; [done|]. split; [done|by intros Hhl].
    + intros Hz. by apply Heq, Qcminus_eq_0.
Qed.

(** [yScale] is order-reversing, and sends the source interval into
    [0, height]. *)
Lemma yScale_antitone (lo hi h a b : Qc) :
  (lo ≤ hi)%Qc → (0 ≤ h)%Qc → (a ≤ b)%Qc →
  (yScale (Fin lo) (Fin hi) (Fin h) (Fin b)
   ≤ yScale (Fin lo) (Fin hi) (Fin h) (Fin a))%js.
Proof.
  intros Hlohi Hh Hab.
  destruct (yScale_Fin lo hi h a) as (qa & -> & Hqa & Hqa').
  destruct (yScale_Fin lo hi h b) as (qb & -> & Hqb & Hqb').
  apply le_Fin. destruct (decide (hi = lo)) as [Heq|Hne].
  - rewrite (Hqa' Heq), (Hqb' Heq). apply Qcle_refl.
  - rewrite (Hqa Hne), (Hqb Hne). unfold Qcminus at 1 3.
    apply Qcplus_le_mono_l, Qcopp_le_compat.
    apply Qcmult_le_mono_nonneg_r; [done|]. apply fraction_mono; [|done].
    by destruct (Qcle_lt_or_eq _ _ Hlohi).
Qed.

Lemma yScale_bounds (lo hi h y : Qc) :
  (lo ≤ hi)%Qc → (0 ≤ h)%Qc → (lo ≤ y ≤ hi)%Qc →
  (num 0 ≤ yScale (Fin lo) (Fin hi) (Fin h) (Fin y))%js
  ∧ (yScale (Fin lo) (Fin hi) (Fin h) (Fin y) ≤ Fin h)%js.
Proof.
  intros Hlohi Hh Hy.
  destruct (yScale_Fin lo hi h y) as (q & -> & Hq & Hq').
  rewrite le_num_0, le_Fin. destruct (decide (hi = lo)) as [Heq|Hne].
  - rewrite (Hq' Heq). by apply half_bounds.
  - rewrite (Hq Hne).
    assert (lo < hi)%Qc as Hlt by (by destruct (Qcle_lt_or_eq _ _ Hlohi)).
    destruct (fraction_bounds lo hi y Hlt Hy) as [H0 H1].
    set (t := ((y - lo) / (hi - lo))%Qc) in *. split.
    + apply Qcminus_nonneg. rewrite <- (Qcmult_1_l h) at 2.
      by apply Qcmult_le_mono_nonneg_r.
    + apply Qcminus_nonneg. replace (h - (h - t * h))%Qc with (t * h)%Qc by ring.
      by apply Qcmult_nonneg_nonneg.
Qed.

Lemma Chart_width : Chart.width = num 260.
Proof. by_computation. Qed.

Lemma Chart_height : Chart.height = num 150.
Proof. by_computation. Qed.

(** The y-range of a chart is always a finite interval around 0 that
    contains every finite y of the data. *)
Lemma y_range (datasets : list ChartDataset.t) :
  ∃ lo hi, Chart.minY datasets = Fin lo ∧ Chart.maxY datasets = Fin hi
           ∧ (lo ≤ 0 ≤ hi)%Qc
           ∧ ∀ p, p ∈ Chart.allPoints datasets → isFinite (ChartPoint.y p) →
                  (lo ≤ qval (ChartPoint.y p) ≤ hi)%Qc.
Proof.
  assert (Forall (λ v, isFinite v) (num 0 :: Chart.yValues datasets)) as Hfin.
  { apply Forall_cons. split; [done|]. apply Forall_forall.
    by intros v [Hv _]%list_elem_of_filter. }
  assert (num 0 :: Chart.yValues datasets ≠ []) as Hne by done.
  destruct (Math_min_finite _ Hne Hfin) as (lo & Hlo & Hmin).
  destruct (Math_max_finite _ Hne Hfin) as (hi & Hhi & Hmax).
  exists lo, hi. split; [done|]. split; [done|]. split.
  - specialize (Hmin (num 0) (list_elem_of_here _ _)).
    specialize (Hmax (num 0) (list_elem_of_here _ _)).
    unfold num in Hmin, Hmax. simpl in Hmin, Hmax.
    by rewrite Z2Qc_inj_0 in Hmin, Hmax.
  - intros p Hp Hy.
    assert (ChartPoint.y p ∈ num 0 :: Chart.yValues datasets) as Hin.
    { apply list_elem_of_further, list_elem_of_filter. split; [done|].
      by apply list_elem_of_fmap_2. }
    split; [by apply Hmin|by apply Hmax].
Qed.

Lemma x_range_points (datasets : list ChartDataset.t) (p : ChartPoint.t) :
  Forall (λ p, isFinite (ChartPoint.x p)) (Chart.allPoints datasets) →
  p ∈ Chart.allPoints datasets →
  ∃ lo hi, Chart.minX datasets = Fin lo ∧ Chart.maxX datasets = Fin hi
           ∧ (lo ≤ hi)%Qc
           ∧ ∀ q, q ∈ Chart.allPoints datasets →
                  (lo ≤ qval (ChartPoint.x q) ≤ hi)%Qc.
Proof.
  intros Hfin Hp.
  assert (Chart.xValues datasets ≠ []) as Hne.
  { intros Hnil. apply (list_elem_of_fmap_2 ChartPoint.x) in Hp.
    fold (Chart.xValues datasets) in Hp. rewrite Hnil in Hp.
    by apply elem_of_nil in Hp. }
  pose proof (xValues_finite datasets Hfin) as Hxs.
  destruct (Math_min_finite _ Hne Hxs) as (lo & Hlo & Hmin).
  destruct (Math_max_finite _ Hne Hxs) as (hi & Hhi & Hmax).
  assert (∀ q, q ∈ Chart.allPoints datasets →
               (lo ≤ qval (ChartPoint.x q) ≤ hi)%Qc) as Hrange.
  { intros q Hq. apply (list_elem_of_fmap_2 ChartPoint.x) in Hq.
    split; [by apply Hmin|by apply Hmax]. }
  exists lo, hi. split; [done|]. split; [done|]. split; [|done].
  destruct (Hrange p Hp). by etrans.
Qed.

(** X5.  When the x-coordinates of a chart's data are finite and their
    spread [maxX - minX] does not exceed [Number.MAX_VALUE] (so that the
    subtraction does not overflow), every data point is placed
    horizontally inside the plot, between 0 and the plot width, and a
    point with the smaller x-coordinate is never placed further right. *)
Theorem xScale_within_plot (datasets : list ChartDataset.t) (p q : ChartPoint.t) :
  Forall (λ p, isFinite (ChartPoint.x p)) (Chart.allPoints datasets) →
  (Chart.maxX datasets - Chart.minX datasets ≤ Number_MAX_VALUE)%js →
  p ∈ Chart.allPoints datasets → q ∈ Chart.allPoints datasets →
  (num 0 ≤ Chart.xScale datasets (ChartPoint.x p))%js
  ∧ (Chart.xScale datasets (ChartPoint.x p) ≤ Chart.width)%js
  ∧ ((ChartPoint.x p ≤ ChartPoint.x q)%js →
     (Chart.xScale datasets (ChartPoint.x p)
      ≤ Chart.xScale datasets (ChartPoint.x q))%js).
Proof.
  intros Hfin _ Hp Hq.
  destruct (x_range_points datasets p Hfin Hp) as (lo & hi & Hlo & Hhi & Hlohi & Hrange).
  pose proof (proj1 (Forall_forall _ _) Hfin p Hp) as Hxp%isFinite_qval.
  pose proof (proj1 (Forall_forall _ _) Hfin q Hq) as Hxq%isFinite_qval.
  assert (0 ≤ Qc_of_Z 260)%Qc as Hw by (by apply Qc_of_Z_nonneg).
  unfold Chart.xScale. rewrite Hlo, Hhi, Chart_width, Hxp, Hxq. unfold num.
  split; [|split].
  - by apply xScale_bounds; [..|apply Hrange].
  - by apply xScale_bounds; [..|apply Hrange].
  - intros Hle%le_Fin. by apply xScale_mono.
Qed.

Lemma xScale_within_plot_witness :
  (num 0 ≤ Chart.xScale gappedDatasets (num 1))%js
  ∧ (Chart.xScale gappedDatasets (num 1) ≤ Chart.xScale gappedDatasets (num 3))%js.
Proof.
  destruct (xScale_within_plot gappedDatasets (point 1 4) (point 3 9))
    as (H0 & _ & Hmono); [by_computation..|].
  split; [exact H0|]. apply Hmono. by_computation.
Defined.

(** X6.  When the spread [maxY - minY] of a chart does not exceed
    [Number.MAX_VALUE] (so that the subtraction does not overflow), every
    data point with a finite y, and the zero line, are placed vertically
    inside the plot, between 0 and the plot height; and of two finite
    values within the chart's range the greater is never placed lower (it
    has the smaller or the same pixel offset). *)
Theorem yScale_within_plot (datasets : list ChartDataset.t) :
  (Chart.maxY datasets - Chart.minY datasets ≤ Number_MAX_VALUE)%js →
  (∀ p, p ∈ Chart.allPoints datasets → isFinite (ChartPoint.y p) →
        (num 0 ≤ Chart.yScale datasets (ChartPoint.y p))%js
        ∧ (Chart.yScale datasets (ChartPoint.y p) ≤ Chart.height)%js)
  ∧ ((num 0 ≤ Chart.yScale datasets (num 0))%js
     ∧ (Chart.yScale datasets (num 0) ≤ Chart.height)%js)
  ∧ (∀ a b, isFinite a → isFinite b →
            (Chart.minY datasets ≤ a)%js → (a ≤ b)%js → (b ≤ Chart.maxY datasets)%js →
            (Chart.yScale datasets b ≤ Chart.yScale datasets a)%js).
Proof.
  intros _.
  destruct (y_range datasets) as (lo & hi & Hlo & Hhi & [Hlo0 Hhi0] & Hrange).
  assert (0 ≤ Qc_of_Z 150)%Qc as Hh by (by apply Qc_of_Z_nonneg).
  assert (lo ≤ hi)%Qc as Hlohi by (by etrans).
  unfold Chart.yScale. rewrite Hlo, Hhi, Chart_height.
  split; [|split].
  - intros p Hp Hy. rewrite (isFinite_qval _ Hy). unfold num.
    by apply yScale_bounds; [..|apply Hrange].
  - unfold num. apply yScale_bounds; [done..|].
    by rewrite Z2Qc_inj_0.
  - intros a b Ha%isFinite_qval Hb%isFinite_qval _. rewrite Ha, Hb.
    intros Hle%le_Fin _. unfold num. by apply yScale_antitone.
Qed.

Lemma yScale_within_plot_witness :
  (Chart.yScale gappedDatasets (num 9) ≤ Chart.yScale gappedDatasets (num 4))%js
  ∧ (Chart.yScale gappedDatasets (num 4) ≤ Chart.height)%js.
Proof.
  destruct (yScale_within_plot gappedDatasets) as (Hin & _ & Hanti); [by_computation|].
  split.
  - apply Hanti; by_computation.
  - apply (Hin (point 1 4)); by_computation.
Defined.

(** ** The path builder, continued *)

Lemma fmap_lookup_total_seq {A} `{!Inhabited A} (l : list A) (k : nat) :
  (λ i, l !!! (k + i)%nat) <$> seq 0 (length l - k) = drop k l.
Proof.
  apply list_eq. intros i. rewrite list_lookup_fmap, lookup_drop.
  destruct (decide (i < length l - k)%nat) as [Hi|Hi].
  - rewrite lookup_seq_lt by done. simpl.
    by rewrite (list_lookup_lookup_total_lt l (k + i)) by lia.
  - rewrite lookup_seq_ge by lia. simpl.
    by rewrite lookup_ge_None_2 by lia.
Qed.

(** X7.  With two or more points, the points the path's commands draw to
    are exactly the scaled input points, in order: the path passes through
    every point. *)
Theorem createSmoothPath_through_points (datasets : list ChartDataset.t)
    (points : list ChartPoint.t) :
  (2 ≤ length points)%nat →
  target <$> Chart.createSmoothPath datasets points
  = (λ p, ChartPoint.mk (Chart.xScale datasets (ChartPoint.x p))
                        (Chart.yScale datasets (ChartPoint.y p))) <$> points.
Proof.
  intros Hlen. set (scale := λ p, ChartPoint.mk _ _).
  destruct (decide (length points = 2)%nat) as [H2|H2].
  - destruct points as [|a [|b [|c points]]]; try done.
  - rewrite createSmoothPath_curves by lia. fold scale.
    set (sp := scale <$> points).
    assert (length sp = length points) as Hsl by (unfold sp; by rewrite length_fmap).
    rewrite fmap_cons, <- list_fmap_compose.
    change (target (M (sp !!! 0%nat))) with (sp !!! 0%nat).
    assert ((target ∘ Chart.segment sp) <$> seq 0 (length points - 1)
            = (λ i, sp !!! (1 + i)%nat) <$> seq 0 (length points - 1)) as ->.
    { apply list_fmap_ext. intros j k _. simpl. by rewrite Nat.add_1_r. }
    rewrite <- Hsl, fmap_lookup_total_seq.
    destruct sp as [|s0 sp']; [simpl in Hsl; lia|]. done.
Qed.

Lemma createSmoothPath_through_points_witness :
  target <$> Chart.createSmoothPath gappedDatasets [point 0 1; point 1 4; point 3 9]
  = [ChartPoint.mk (num 0) (Fin (Qc_of_Z 400 / Qc_of_Z 3)%Qc);
     ChartPoint.mk (Fin (Qc_of_Z 260 / Qc_of_Z 3)%Qc) (Fin (Qc_of_Z 250 / Qc_of_Z 3)%Qc);
     ChartPoint.mk (num 260) (num 0)].
Proof.
  rewrite (createSmoothPath_through_points gappedDatasets
             [point 0 1; point 1 4; point 3 9]).
  - by_computation.
  - simpl. lia.
Defined.

(** X8.  At every interior point of a path of three or more points the
    curve arrives and leaves with the same tangent, half the chord
    between the two neighbouring scaled points: the second control point
    of the arriving segment is the point minus that tangent and the first
    control point of the leaving segment is the point plus it. *)
Theorem createSmoothPath_smooth_joint (datasets : list ChartDataset.t)
    (points : list ChartPoint.t) (i : nat) (p0 p1 p2 : ChartPoint.t) :
  points !! i = Some p0 → points !! (i + 1)%nat = Some p1 →
  points !! (i + 2)%nat = Some p2 →
  let scale := λ p, ChartPoint.mk (Chart.xScale datasets (ChartPoint.x p))
                                  (Chart.yScale datasets (ChartPoint.y p)) in
  let s0 := scale p0 in
  let s1 := scale p1 in
  let s2 := scale p2 in
  let tx := ((ChartPoint.x s2 - ChartPoint.x s0) * Fin (1 / 2)%Qc)%js in
  let ty := ((ChartPoint.y s2 - ChartPoint.y s0) * Fin (1 / 2)%Qc)%js in
  ∃ cp1 cp2',
    Chart.createSmoothPath datasets points !! (i + 1)%nat
    = Some (C cp1 (ChartPoint.mk (ChartPoint.x s1 - tx)%js (ChartPoint.y s1 - ty)%js) s1)
    ∧ Chart.createSmoothPath datasets points !! (i + 2)%nat
      = Some (C (ChartPoint.mk (ChartPoint.x s1 + tx)%js (ChartPoint.y s1 + ty)%js) cp2' s2).
Proof.
  intros H0 H1 H2 scale s0 s1 s2 tx ty.
  pose proof (lookup_lt_Some _ _ _ H2) as Hlen.
  rewrite createSmoothPath_curves by lia. fold scale.
  set (sp := scale <$> points).
  assert (length sp = length points) as Hsl by (unfold sp; by rewrite length_fmap).
  assert (∀ k p, points !! k = Some p → sp !!! k = scale p) as Hsp.
  { intros k p Hk. apply list_lookup_total_correct.
    unfold sp. by rewrite list_lookup_fmap, Hk. }
  assert (∀ k, (k < length points - 1)%nat →
            (M (sp !!! 0%nat) :: (Chart.segment sp <$> seq 0 (length points - 1)))
              !! S k = Some (Chart.segment sp k)) as Hseg.
  { intros k Hk. change ((?a :: ?l) !! S k) with (l !! k).
    by rewrite list_lookup_fmap, lookup_seq_lt by lia. }
  assert (sp !!! (S i - 1)%nat = s0) as Hs0
    by (replace (S i - 1)%nat with i by lia; by apply Hsp).
  assert (sp !!! S i = s1) as Hs1
    by (replace (S i) with (i + 1)%nat by lia; by apply Hsp).
  assert (sp !!! (S i + 1)%nat = s2) as Hs2
    by (replace (S i + 1)%nat with (i + 2)%nat by lia; by apply Hsp).
  eexists _, _. split.
  - replace (i + 1)%nat with (S i) by lia. rewrite Hseg by lia. f_equal.
    unfold Chart.segment. rewrite Hsl.
    rewrite (decide_True (P := (i < length points - 2)%nat)) by lia.
    replace (S i) with (i + 1)%nat by lia.
    by rewrite (Hsp _ _ H0), (Hsp _ _ H1), (Hsp _ _ H2).
  - replace (i + 2)%nat with (S (S i)) by lia. rewrite Hseg by lia. f_equal.
    unfold Chart.segment.
    rewrite (decide_True (P := (0 < S i)%nat)) by lia.
    by rewrite Hs0, Hs1, Hs2.
Qed.

Lemma createSmoothPath_smooth_joint_witness :
  ∃ cp1 cp2',
    Chart.createSmoothPath gappedDatasets [point 0 1; point 1 4; point 3 9] !! 1%nat
    = Some (C cp1 (ChartPoint.mk (Fin (- (Qc_of_Z 130 / Qc_of_Z 3))%Qc) (num 150))
              (ChartPoint.mk (Fin (Qc_of_Z 260 / Qc_of_Z 3)%Qc)
                             (Fin (Qc_of_Z 250 / Qc_of_Z 3)%Qc)))
    ∧ Chart.createSmoothPath gappedDatasets [point 0 1; point 1 4; point 3 9] !! 2%nat
      = Some (C (ChartPoint.mk (Fin (Qc_of_Z 650 / Qc_of_Z 3)%Qc)
                               (Fin (Qc_of_Z 50 / Qc_of_Z 3)%Qc))
                cp2' (ChartPoint.mk (num 260) (num 0))).
Proof.
  destruct (createSmoothPath_smooth_joint gappedDatasets
              [point 0 1; point 1 4; point 3 9] 0 (point 0 1) (point 1 4) (point 3 9))
    as (cp1 & cp2' & Hin & Hout); [reflexivity..|].
  exists cp1, cp2'. split.
  - etrans; [exact Hin|]. do 2 f_equal; by_computation.
  - etrans; [exact Hout|]. do 2 f_equal; by_computation.
Defined.

(** ** The zero-crossing split, continued *)

Lemma ge_num_0_refl : (num 0 ≥ num 0)%js.
Proof. by_computation. Qed.

Lemma le_num_0_refl : (num 0 ≤ num 0)%js.
Proof. by_computation. Qed.

(** The two lists of the split are the two filters of the data, with at
    most one extra point of height 0 at the front or the back of each. *)
Lemma splitAtZeroCrossing_shape (data : list ChartPoint.t) :
  let positiveData := filter (λ d, ChartPoint.y d ≥ num 0)%js data in
  let negativeData := filter (λ d, ChartPoint.y d ≤ num 0)%js data in
  Chart.splitAtZeroCrossing data = (positiveData, negativeData)
  ∨ ∃ x0, let ip := ChartPoint.mk x0 (num 0) in
          Chart.splitAtZeroCrossing data = (positiveData ++ [ip], ip :: negativeData)
          ∨ Chart.splitAtZeroCrossing data = (ip :: positiveData, negativeData ++ [ip]).
Proof.
  intros positiveData negativeData. unfold Chart.splitAtZeroCrossing.
  fold positiveData negativeData.
  destruct (list_find _ _) as [[j i]|]; [|by left].
  case_decide; [|by left]. right. eexists. simpl.
  case_decide; [left|right]; reflexivity.
Qed.

(** X9.  Whatever the data, every point of the first list of the split
    has [y >= 0] and every point of the second has [y <= 0], and every
    point of the data whose [y] is a number ([not NaN]) is in one of the
    two, so each list can be drawn in its own colour. *)
Theorem splitAtZeroCrossing_signs (data : list ChartPoint.t) :
  Forall (λ d, ChartPoint.y d ≥ num 0)%js (Chart.splitAtZeroCrossing data).1
  ∧ Forall (λ d, ChartPoint.y d ≤ num 0)%js (Chart.splitAtZeroCrossing data).2
  ∧ ∀ d, d ∈ data → ChartPoint.y d ≠ NaN →
         d ∈ (Chart.splitAtZeroCrossing data).1 ∨ d ∈ (Chart.splitAtZeroCrossing data).2.
Proof.
  assert (Forall (λ d, ChartPoint.y d ≥ num 0)%js
            (filter (λ d, ChartPoint.y d ≥ num 0)%js data)) as Hpos.
  { apply Forall_forall. by intros d [Hd _]%list_elem_of_filter. }
  assert (Forall (λ d, ChartPoint.y d ≤ num 0)%js
            (filter (λ d, ChartPoint.y d ≤ num 0)%js data)) as Hneg.
  { apply Forall_forall. by intros d [Hd _]%list_elem_of_filter. }
  assert (∀ d, d ∈ data → ChartPoint.y d ≠ NaN →
            d ∈ filter (λ d, ChartPoint.y d ≥ num 0)%js data
            ∨ d ∈ filter (λ d, ChartPoint.y d ≤ num 0)%js data) as Hcover.
  { intros d Hd Hnan. rewrite !list_elem_of_filter.
    destruct (decide (ChartPoint.y d ≥ num 0)%js) as [Hge|Hge]; [by left|right].
    split; [|done]. unfold ge, le, num in *.
    destruct (ChartPoint.y d) as [q| | |]; simpl in *; try done; try (by left).
    - destruct (q ?= Qc_of_Z 0)%Qc; [by right|by left|by destruct Hge; left].
    - by destruct Hge; left. }
  destruct (splitAtZeroCrossing_shape data) as [->|(x0 & [->| ->])]; simpl.
  - done.
  - split; [|split].
    + apply Forall_app. split; [done|]. apply Forall_singleton, ge_num_0_refl.
    + apply Forall_cons. split; [apply le_num_0_refl|done].
    + intros d Hd Hnan. rewrite elem_of_app, !elem_of_cons.
      destruct (Hcover d Hd Hnan); tauto.
  - split; [|split].
    + apply Forall_cons. split; [apply ge_num_0_refl|done].
    + apply Forall_app. split; [done|]. apply Forall_singleton, le_num_0_refl.
    + intros d Hd Hnan. rewrite elem_of_app, !elem_of_cons.
      destruct (Hcover d Hd Hnan); tauto.
Qed.

Lemma splitAtZeroCrossing_signs_witness :
  point 2 15 ∈ (Chart.splitAtZeroCrossing standardOvenMarginalProduct).1
  ∨ point 2 15 ∈ (Chart.splitAtZeroCrossing standardOvenMarginalProduct).2.
Proof.
  destruct (splitAtZeroCrossing_signs standardOvenMarginalProduct) as (_ & _ & Hcover).
  apply Hcover; by_computation.
Defined.

Lemma filter_all {A} (P : A → Prop) `{!∀ a, Decision (P a)} (l : list A) :
  (∀ a, a ∈ l → P a) → filter P l = l.
Proof.
  induction l as [|a l IH]; intros Hall; [done|].
  rewrite filter_cons_True by apply Hall, list_elem_of_here.
  f_equal. apply IH. intros b Hb. by apply Hall, list_elem_of_further.
Qed.

Lemma filter_none {A} (P : A → Prop) `{!∀ a, Decision (P a)} (l : list A) :
  (∀ a, a ∈ l → ¬ P a) → filter P l = [].
Proof.
  induction l as [|a l IH]; intros Hall; [done|].
  rewrite filter_cons_False by apply Hall, list_elem_of_here.
  apply IH. intros b Hb. by apply Hall, list_elem_of_further.
Qed.

(** X10.  A series whose values are all positive is not split: the first
    list is the series itself and the second is empty, so the second path
    drawn for the dataset is the empty path. *)
Theorem splitAtZeroCrossing_all_positive (datasets : list ChartDataset.t)
    (data : list ChartPoint.t) :
  Forall (λ d, ChartPoint.y d > num 0)%js data →
  Chart.splitAtZeroCrossing data = (data, [])
  ∧ Chart.pathSegments datasets (ChartDataset.mk "Total Profit" data "text-green-500")
    = [Chart.createSmoothPath datasets data; []].
Proof.
  intros Hpos.
  assert (∀ d, d ∈ data → (ChartPoint.y d ≥ num 0)%js ∧ ¬ (ChartPoint.y d ≤ num 0)%js
                          ∧ ¬ (ChartPoint.y d < num 0)%js) as Hd.
  { intros d Hd%(proj1 (Forall_forall _ _) Hpos). unfold gt, ge, le, lt in *.
    rewrite Hd. split; [by left|]. split; [by intros [|]|done]. }
  assert (Chart.splitAtZeroCrossing data = (data, [])) as Hsplit.
  { unfold Chart.splitAtZeroCrossing.
    assert (list_find (λ i, Chart.signChange (data !!! i) (data !!! (i + 1)%nat))
              (seq 0 (length data - 1)) = None) as ->.
    { apply list_find_None, Forall_forall. intros i [_ Hi]%elem_of_seq.
      assert (data !!! i ∈ data) as H1 by (apply list_elem_of_lookup_total_2; lia).
      assert (data !!! (i + 1)%nat ∈ data) as H2
        by (apply list_elem_of_lookup_total_2; lia).
      destruct (Hd _ H1) as (_ & Hle & _), (Hd _ H2) as (_ & _ & Hlt).
      by intros [[_ ?]|[? _]]. }
    f_equal.
    - apply filter_all. intros d Hin. by apply Hd.
    - apply filter_none. intros d Hin. by apply Hd. }
  split; [done|]. unfold Chart.pathSegments. simpl. by rewrite Hsplit.
Qed.

Lemma splitAtZeroCrossing_all_positive_witness :
  Chart.splitAtZeroCrossing [point 1 16; point 2 10; point 3 8]
  = ([point 1 16; point 2 10; point 3 8], []).
Proof.
  apply (splitAtZeroCrossing_all_positive []). by_computation.
Defined.

Lemma unit_interval_scale (s d : Qc) :
  (0 ≤ s ≤ 1)%Qc → (0 ≤ d)%Qc → (0 ≤ s * d ≤ d)%Qc.
Proof.
  intros [H0 H1] Hd. split; [by apply Qcmult_nonneg_nonneg|].
  rewrite <- (Qcmult_1_l d) at 2. by apply Qcmult_le_mono_nonneg_r.
Qed.

Lemma unit_interval_complement (t : Qc) : (0 ≤ t ≤ 1)%Qc → (0 ≤ 1 - t ≤ 1)%Qc.
Proof.
  intros [H0 H1]. split; [by apply Qcminus_nonneg|].
  apply Qcminus_nonneg. by replace (1 - (1 - t))%Qc with t by ring.
Qed.




(** ** The tooltip *)

Lemma find_Some_elem {A} (P : A → Prop) `{!∀ a, Decision (P a)} (l : list A) (a : A) :
  find P l = Some a → a ∈ l ∧ P a.
Proof.
  unfold find. intros ([i b] & Hfind & ->)%fmap_Some.
  apply list_find_Some in Hfind as (Hi & Hb & _).
  split; [by eapply list_elem_of_lookup_2|done].
Qed.

Lemma find_is_Some {A} (P : A → Prop) `{!∀ a, Decision (P a)} (l : list A) (a : A) :
  a ∈ l → P a → is_Some (find P l).
Proof.
  intros Ha HP. unfold find.
  destruct (list_find_elem_of P l a Ha HP) as [[i b] ->]. by eexists.
Qed.

Lemma find_None {A} (P : A → Prop) `{!∀ a, Decision (P a)} (l : list A) :
  (∀ a, a ∈ l → ¬ P a) → find P l = None.
Proof.
  intros Hnone. unfold find.
  assert (list_find P l = None) as ->; [|done].
  by apply list_find_None, Forall_forall.
Qed.

Lemma length_omap_le {A B} (f : A → option B) (l : list A) :
  (length (omap f l) ≤ length l)%nat.
Proof.
  induction l as [|a l IH]; simpl; [done|].
  destruct (f a); simpl; change (list_omap A B f l) with (omap f l); lia.
Qed.

Lemma strict_eq_eq (a b : number) : (a === b)%js → a = b.
Proof.
  unfold strict_eq. destruct a as [p| | |], b as [q| | |]; simpl; try done.
  intros [= Heq]. f_equal. by apply Qceq_alt.
Qed.

Lemma elem_of_allPoints (datasets : list ChartDataset.t) (p : ChartPoint.t) :
  p ∈ Chart.allPoints datasets ↔ ∃ ds, ds ∈ datasets ∧ p ∈ ChartDataset.data ds.
Proof.
  unfold Chart.allPoints. rewrite list_elem_of_bind. split.
  - intros (ds & Hp & Hds). eauto.
  - intros (ds & Hds & Hp). eauto.
Qed.

(** X12.  Entering the hover target of [xValue] sets the tooltip exactly
    when some dataset has a point at [xValue]; the tooltip then carries
    [xValue], its scaled position, and between one point and one point per
    dataset, each taken at [xValue] from a dataset whose label it bears.
    When no dataset has a point there the tooltip is left as it was.  In
    particular every hover target of the chart (other than one for [NaN])
    sets the tooltip. *)
Theorem handleMouseOver_tooltip (datasets : list ChartDataset.t) (xValue : number)
    (tooltip : option Tooltip.t) :
  ((∃ p, p ∈ Chart.allPoints datasets ∧ (ChartPoint.x p === xValue)%js) →
   ∃ tt, ChartTooltip.handleMouseOver datasets xValue tooltip = Some tt
         ∧ Tooltip.x tt = xValue
         ∧ Tooltip.svgX tt = Chart.xScale datasets xValue
         ∧ (0 < length (Tooltip.points tt) ≤ length datasets)%nat
         ∧ Forall (λ tp, TooltipPoint.x tp = xValue
                         ∧ ∃ ds, ds ∈ datasets
                                 ∧ TooltipPoint.label tp = ChartDataset.label ds
                                 ∧ ChartPoint.mk (TooltipPoint.x tp) (TooltipPoint.y tp)
                                     ∈ ChartDataset.data ds)
                  (Tooltip.points tt))
  ∧ ((∀ p, p ∈ Chart.allPoints datasets → ¬ (ChartPoint.x p === xValue)%js) →
     ChartTooltip.handleMouseOver datasets xValue tooltip = tooltip)
  ∧ (xValue ∈ Chart.uniqueXValues datasets → xValue ≠ NaN →
     ∃ tt, ChartTooltip.handleMouseOver datasets xValue tooltip = Some tt
           ∧ Tooltip.x tt = xValue).
Proof.
  set (pts := ChartTooltip.pointsForX datasets "€" xValue).
  assert (∀ tp, tp ∈ pts ↔
            ∃ ds p, ds ∈ datasets
                    ∧ find (λ p, ChartPoint.x p === xValue)%js (ChartDataset.data ds) = Some p
                    ∧ tp = TooltipPoint.mk (ChartPoint.x p) (ChartPoint.y p)
                             (ChartDataset.label ds) (ChartDataset.color ds) "€") as Hpts.
  { intros tp. unfold pts, ChartTooltip.pointsForX. rewrite list_elem_of_omap. split.
    - intros (ds & Hds & (p & Hp & ->)%fmap_Some). eauto.
    - intros (ds & p & Hds & Hp & ->). exists ds. split; [done|]. by rewrite Hp. }
  assert ((∃ p, p ∈ Chart.allPoints datasets ∧ (ChartPoint.x p === xValue)%js) →
          ∃ tt, ChartTooltip.handleMouseOver datasets xValue tooltip = Some tt
                ∧ Tooltip.x tt = xValue
                ∧ Tooltip.svgX tt = Chart.xScale datasets xValue
                ∧ Tooltip.points tt = pts ∧ (0 < length pts)%nat) as Hset.
  { intros (p & (ds & Hds & Hp)%elem_of_allPoints & Hx).
    destruct (find_is_Some (λ p, ChartPoint.x p === xValue)%js _ p Hp Hx) as [p' Hp'].
    assert (0 < length pts)%nat as Hlen.
    { assert (TooltipPoint.mk (ChartPoint.x p') (ChartPoint.y p')
                (ChartDataset.label ds) (ChartDataset.color ds) "€" ∈ pts) as Hin
        by (apply Hpts; eauto).
      destruct pts; [by apply elem_of_nil in Hin|simpl; lia]. }
    unfold ChartTooltip.handleMouseOver. fold pts. rewrite decide_True by done.
    eexists. split; [reflexivity|]. done. }
  split; [|split].
  - intros Hex. destruct (Hset Hex) as (tt & Htt & Hx & Hsvg & Hp & Hlen).
    exists tt. rewrite Hp. do 3 (split; [done|]). split.
    + split; [done|]. apply length_omap_le.
    + apply Forall_forall. intros tp (ds & p & Hds & Hfind & ->)%Hpts.
      apply find_Some_elem in Hfind as [Hin Hx']. simpl.
      split; [by apply strict_eq_eq|]. exists ds. by destruct p.
  - intros Hnone. unfold ChartTooltip.handleMouseOver. fold pts.
    assert (pts = []) as ->; [|done].
    destruct pts as [|tp pts']; [done|]. exfalso.
    destruct (proj1 (Hpts tp) (list_elem_of_here _ _)) as (ds & p & Hds & Hfind & _).
    apply find_Some_elem in Hfind as [Hin Hx'].
    apply (Hnone p); [|done]. apply elem_of_allPoints. eauto.
  - intros Hu Hnan. destruct Hset as (tt & Htt & Hx & _); [|by exists tt].
    apply elem_of_uniqueXValues in Hu. unfold Chart.xValues in Hu.
    apply list_elem_of_fmap in Hu as (p & -> & Hp).
    exists p. split; [done|]. by apply strict_eq_refl.
Qed.

Lemma handleMouseOver_tooltip_witness :
  ∃ tt, ChartTooltip.handleMouseOver gappedDatasets (num 3) None = Some tt
        ∧ Tooltip.x tt = num 3.
Proof.
  destruct (handleMouseOver_tooltip gappedDatasets (num 3) None) as (_ & _ & Hhover).
  apply Hhover; by_computation.
Defined.

(** The sum, from a finite start, of numbers that all lie in [0, h]. *)
Lemma fold_left_add_bounds (h : Qc) (l : list number) (a : Qc) :
  Forall (λ v, (num 0 ≤ v)%js ∧ (v ≤ Fin h)%js) l →
  ∃ s, fold_left add l (Fin a) = Fin s
       ∧ (a ≤ s ≤ a + Qc_of_Z (Z.of_nat (length l)) * h)%Qc.
Proof.
  intros Hl. revert a. induction Hl as [|v l [Hv0 Hvh] _ IH]; intros a.
  - exists a. split; [done|]. change (Z.of_nat (length [])) with 0%Z.
    rewrite Z2Qc_inj_0, Qcmult_0_l, Qcplus_0_r. split; apply Qcle_refl.
  - destruct v as [q| | |]; try (by destruct Hv0); try (by destruct Hvh).
    apply le_num_0 in Hv0. apply le_Fin in Hvh.
    change (fold_left add (Fin q :: l) (Fin a))
      with (fold_left add l (Fin (a + q)%Qc)).
    destruct (IH (a + q)%Qc) as (s & -> & Hlo & Hhi). exists s. split; [done|]. split.
    + etrans; [|exact Hlo]. rewrite <- (Qcplus_0_r a) at 1. by apply Qcplus_le_mono_l.
    + etrans; [exact Hhi|]. rewrite length_cons, Nat2Z.inj_succ.
      unfold Z.succ. rewrite Z2Qc_inj_add, Z2Qc_inj_1.
      replace (a + (Qc_of_Z (Z.of_nat (length l)) + 1) * h)%Qc
        with (a + h + Qc_of_Z (Z.of_nat (length l)) * h)%Qc by ring.
      apply Qcplus_le_mono_r. by apply Qcplus_le_mono_l.
Qed.

(** The arithmetic mean of numbers in [0, h] lies in [0, h]. *)
Lemma mean_bounds (h : Qc) (l : list number) :
  l ≠ [] →
  Forall (λ v, (num 0 ≤ v)%js ∧ (v ≤ Fin h)%js) l →
  (num 0 ≤ fold_left add l (num 0) / num (Z.of_nat (length l)))%js
  ∧ (fold_left add l (num 0) / num (Z.of_nat (length l)) ≤ Fin h)%js.
Proof.
  intros Hne Hl. unfold num at 2 4.
  destruct (fold_left_add_bounds h l (Qc_of_Z 0) Hl) as (s & -> & Hlo & Hhi).
  rewrite Z2Qc_inj_0, Qcplus_0_l in *.
  set (n := Qc_of_Z (Z.of_nat (length l))) in *.
  assert (0 < n)%Qc as Hn.
  { unfold n. rewrite <- Z2Qc_inj_0, <- Z2Qc_inj_lt. destruct l; [done|simpl; lia]. }
  assert (n ≠ 0)%Qc as Hn' by (intros Hz; rewrite Hz in Hn; by apply Qclt_not_eq in Hn).
  unfold num. fold n. rewrite div_Fin by done. rewrite le_Fin, Z2Qc_inj_0, le_Fin.
  pose proof (Qcinv_pos n Hn) as Hinv%Qclt_le_weak. unfold Qcdiv. split.
  - by apply Qcmult_nonneg_nonneg.
  - replace h with (n * h * / n)%Qc by (field; done).
    by apply Qcmult_le_mono_nonneg_r.
Qed.

(** X13.  In a chart whose data have finite y-coordinates of a spread
    [maxY - minY] that does not exceed [Number.MAX_VALUE], the tooltip
    set for an x-value that some dataset has is placed vertically inside
    the plot: its [svgY], the mean of the scaled heights of its points,
    lies between 0 and the plot height. *)
Theorem handleMouseOver_inside_plot (datasets : list ChartDataset.t) (xValue : number)
    (tooltip : option Tooltip.t) :
  Forall (λ p, isFinite (ChartPoint.y p)) (Chart.allPoints datasets) →
  (Chart.maxY datasets - Chart.minY datasets ≤ Number_MAX_VALUE)%js →
  (∃ p, p ∈ Chart.allPoints datasets ∧ (ChartPoint.x p === xValue)%js) →
  ∃ tt, ChartTooltip.handleMouseOver datasets xValue tooltip = Some tt
        ∧ (num 0 ≤ Tooltip.svgY tt)%js ∧ (Tooltip.svgY tt ≤ Chart.height)%js.
Proof.
  intros Hfin _ (p & (ds & Hds & Hp)%elem_of_allPoints & Hx).
  set (pts := ChartTooltip.pointsForX datasets "€" xValue).
  assert (∀ tp, tp ∈ pts →
            ∃ q, q ∈ Chart.allPoints datasets ∧ TooltipPoint.y tp = ChartPoint.y q) as Hpts.
  { intros tp. unfold pts, ChartTooltip.pointsForX. rewrite list_elem_of_omap.
    intros (ds' & Hds' & (q & [Hq _]%find_Some_elem & ->)%fmap_Some).
    exists q. split; [|done]. apply elem_of_allPoints. eauto. }
  assert (pts ≠ []) as Hne.
  { destruct (find_is_Some (λ p, ChartPoint.x p === xValue)%js _ p Hp Hx) as [p' Hp'].
    assert (TooltipPoint.mk (ChartPoint.x p') (ChartPoint.y p')
              (ChartDataset.label ds) (ChartDataset.color ds) "€" ∈ pts) as Hin.
    { unfold pts, ChartTooltip.pointsForX. apply list_elem_of_omap.
      exists ds. split; [done|]. by rewrite Hp'. }
    intros Hnil. rewrite Hnil in Hin. by apply elem_of_nil in Hin. }
  unfold ChartTooltip.handleMouseOver. fold pts.
  rewrite decide_True by (destruct pts; [done|simpl; lia]).
  eexists. split; [reflexivity|]. simpl. rewrite Chart_height. unfold num at 4.
  rewrite length_fmap. rewrite <- (length_fmap (λ p0, Chart.yScale datasets (TooltipPoint.y p0)) pts).
  apply mean_bounds.
  - intros Hnil%fmap_nil_inv. done.
  - apply Forall_fmap, Forall_forall. intros tp (q & Hq & Hy')%Hpts. simpl.
    rewrite Hy'. pose proof (proj1 (Forall_forall _ _) Hfin q Hq) as Hy.
    destruct (y_range datasets) as (lo & hi & Hlo & Hhi & [Hlo0 Hhi0] & Hrange).
    unfold Chart.yScale. rewrite Hlo, Hhi, Chart_height, (isFinite_qval _ Hy).
    unfold num at 2 3. apply yScale_bounds; [by etrans|by apply Qc_of_Z_nonneg|].
    by apply Hrange.
Qed.

Lemma handleMouseOver_inside_plot_witness :
  ∃ tt, ChartTooltip.handleMouseOver gappedDatasets (num 1) None = Some tt
        ∧ (num 0 ≤ Tooltip.svgY tt)%js ∧ (Tooltip.svgY tt ≤ Chart.height)%js.
Proof.
  apply (handleMouseOver_inside_plot gappedDatasets (num 1) None);
    [by_computation|by_computation|].
  exists (point 1 4). split; by_computation.
Defined.

(** ** The bar chart *)

Lemma indexOf_found (l : list number) (k : nat) (v : number) :
  NoDup l → l !! k = Some v → v ≠ NaN → indexOf l v = Z.of_nat k.
Proof.
  intros Hnd Hk Hnan. unfold indexOf.
  apply (findIndex_found _ l k v); [done|by apply strict_eq_refl|].
  intros j b Hj Hb Heq%strict_eq_eq. subst b.
  pose proof (NoDup_lookup _ _ _ _ Hnd Hb Hk). lia.
Qed.

Lemma indexOf_absent (l : list number) (v : number) : v ∉ l → indexOf l v = (-1)%Z.
Proof.
  intros Hv. unfold indexOf. apply findIndex_absent.
  intros a Ha Heq%strict_eq_eq. by subst a.
Qed.

Lemma bandWidth_finite (datasets : list ChartDataset.t) :
  ∃ b, BarChart.bandWidth datasets = Fin b ∧ (0 ≤ b)%Qc
       ∧ ((0 < length (BarChart.xValues datasets))%nat →
          (Qc_of_Z (Z.of_nat (length (BarChart.xValues datasets))) * b)%Qc = Qc_of_Z 260).
Proof.
  assert (BarChart.width = Fin (Qc_of_Z 260)) as Hw by by_computation.
  unfold BarChart.bandWidth. rewrite Hw. case_decide as Hlen.
  - set (n := Qc_of_Z (Z.of_nat (length (BarChart.xValues datasets)))).
    assert (0 < n)%Qc as Hn by (unfold n; rewrite <- Z2Qc_inj_0, <- Z2Qc_inj_lt; lia).
    assert (n ≠ 0)%Qc as Hn' by (intros Hz; rewrite Hz in Hn; by apply Qclt_not_eq in Hn).
    unfold num. fold n. rewrite div_Fin by done. eexists. split; [done|]. split.
    + unfold Qcdiv. apply Qcmult_nonneg_nonneg; [by apply Qc_of_Z_nonneg|].
      by apply Qclt_le_weak, Qcinv_pos.
    + intros _. by apply Qcmult_div_r.
  - eexists. split; [done|]. split; [by apply Qc_of_Z_nonneg|]. intros; lia.
Qed.

(** X14.  When no x-coordinate of the data is [NaN], the bands of the bar
    chart tile the plot from left to right: the [k]-th distinct x-value
    has its hover target at [k] band widths from the left, one band wide
    and of full height; each band ends where the next begins; the bands
    together are as wide as the plot; and an x-value that is not in the
    data is positioned at 0. *)
Theorem barChart_bands (datasets : list ChartDataset.t) :
  Forall (λ p, ChartPoint.x p ≠ NaN) (BarChart.allPoints datasets) →
  let xValues := BarChart.xValues datasets in
  let bandWidth := BarChart.bandWidth datasets in
  (∀ k x, xValues !! k = Some x →
     BarChart.getXPosition datasets x = (num (Z.of_nat k) * bandWidth)%js
     ∧ BarChart.hoverTargets datasets !! k
       = Some (Rect.mk (num (Z.of_nat k) * bandWidth)%js (num 0) bandWidth BarChart.height)
     ∧ (num (Z.of_nat k) * bandWidth + bandWidth)%js
       = (num (Z.of_nat (S k)) * bandWidth)%js)
  ∧ ((0 < length xValues)%nat →
     (num (Z.of_nat (length xValues)) * bandWidth)%js = BarChart.width)
  ∧ (∀ x, x ∉ xValues → BarChart.getXPosition datasets x = num 0).
Proof.
  intros Hnan xValues bandWidth.
  destruct (bandWidth_finite datasets) as (b & Hb & Hb0 & Htile).
  fold bandWidth in Hb. fold xValues in Htile.
  assert (∀ k x, xValues !! k = Some x →
            BarChart.getXPosition datasets x = (num (Z.of_nat k) * bandWidth)%js) as Hpos.
  { intros k x Hk. unfold BarChart.getXPosition. fold xValues bandWidth.
    rewrite (indexOf_found xValues k x); [by rewrite decide_False by lia| |done|].
    - apply NoDup_uniqueXValues.
    - apply list_elem_of_lookup_2, (elem_of_uniqueXValues datasets) in Hk.
      apply list_elem_of_fmap in Hk as (p & -> & Hp).
      by apply (proj1 (Forall_forall _ _) Hnan). }
  split; [|split].
  - intros k x Hk. split; [by apply Hpos|]. split.
    + unfold BarChart.hoverTargets. fold xValues bandWidth.
      rewrite list_lookup_fmap, Hk. simpl. by rewrite (Hpos k x Hk).
    + rewrite Hb. unfold num. rewrite !mul_Fin, add_Fin. f_equal.
      rewrite Nat2Z.inj_succ. unfold Z.succ. rewrite Z2Qc_inj_add, Z2Qc_inj_1. ring.
  - intros Hlen. rewrite Hb. unfold num. rewrite mul_Fin, (Htile Hlen). by_computation.
  - intros x Hx. unfold BarChart.getXPosition. fold xValues.
    by rewrite indexOf_absent, decide_True.
Qed.

Lemma barChart_bands_witness :
  BarChart.getXPosition gappedDatasets (num 3)
  = (num 2 * BarChart.bandWidth gappedDatasets)%js
  ∧ (num 3 * BarChart.bandWidth gappedDatasets)%js = BarChart.width.
Proof.
  destruct (barChart_bands gappedDatasets) as (Hk & Htile & _); [by_computation|].
  split.
  - apply (Hk 2%nat (num 3)). by_computation.
  - apply Htile. vm_compute. lia.
Defined.

Lemma Math_abs_Fin_sub (a b : Qc) :
  ((a ≤ b)%Qc → Math_abs (Fin a - Fin b) = Fin (b - a)%Qc)
  ∧ ((b ≤ a)%Qc → Math_abs (Fin a - Fin b) = Fin (a - b)%Qc).
Proof.
  rewrite sub_Fin. unfold Math_abs. split; intros Hle.
  - case_decide as Hneg.
    + f_equal. ring.
    + apply Qcnot_lt_le in Hneg. apply (proj1 (Qcminus_nonneg b a)) in Hneg.
      assert (a = b) as -> by (by apply Qcle_antisym). done.
  - case_decide as Hneg; [|done].
    apply (proj2 (Qcminus_nonneg b a)) in Hle. by apply Qcle_not_lt in Hle.
Qed.

(** X15.  In a bar chart whose spread [maxY - minY] does not exceed
    [Number.MAX_VALUE], a bar drawn for a point of one of the chart's
    datasets with finite [y]s reaches from the scaled position of [y] to
    the zero line: for [y >= 0] it starts at the scaled [y] and its
    height is the scaled zero minus the scaled [y]; for [y < 0] it starts
    on the zero line and its height is the scaled [y] minus the scaled
    zero.  Its height is never negative and its width is [barWidth]. *)
Theorem bar_on_zero_line (datasets : list ChartDataset.t) (x : number) (i : nat)
    (ds : ChartDataset.t) (r : Rect.t) :
  datasets !! i = Some ds →
  Forall (λ p, isFinite (ChartPoint.y p)) (ChartDataset.data ds) →
  (BarChart.maxY datasets - BarChart.minY datasets ≤ Number_MAX_VALUE)%js →
  BarChart.bar datasets x i ds = Some r →
  ∃ p, p ∈ ChartDataset.data ds ∧ ChartPoint.x p = x
       ∧ Rect.x r = (num (Z.of_nat i) * BarChart.barWidth datasets)%js
       ∧ Rect.width r = BarChart.barWidth datasets
       ∧ (num 0 ≤ Rect.height r)%js
       ∧ ((ChartPoint.y p ≥ num 0)%js →
          Rect.y r = BarChart.yScale datasets (ChartPoint.y p)
          ∧ Rect.height r
            = (BarChart.yScale datasets (num 0)
               - BarChart.yScale datasets (ChartPoint.y p))%js)
       ∧ (¬ (ChartPoint.y p ≥ num 0)%js →
          Rect.y r = BarChart.yScale datasets (num 0)
          ∧ Rect.height r
            = (BarChart.yScale datasets (ChartPoint.y p)
               - BarChart.yScale datasets (num 0))%js).
Proof.
  intros _ Hfin _ Hbar. unfold BarChart.bar in Hbar.
  destruct (find _ _) as [p|] eqn:Hfind; [|done]. simpl in Hbar.
  injection Hbar as <-. apply find_Some_elem in Hfind as [Hp Hx%strict_eq_eq].
  exists p. do 4 (split; [done|]). cbn [Rect.x Rect.y Rect.width Rect.height].
  pose proof (proj1 (Forall_forall _ _) Hfin p Hp) as Hy%isFinite_qval.
  destruct (y_range datasets) as (lo & hi & Hlo & Hhi & [Hlo0 Hhi0] & _).
  assert (lo ≤ hi)%Qc as Hlohi by (by etrans).
  assert (0 ≤ Qc_of_Z 150)%Qc as Hh by (by apply Qc_of_Z_nonneg).
  unfold BarChart.yScale.
  change (BarChart.minY datasets) with (Chart.minY datasets).
  change (BarChart.maxY datasets) with (Chart.maxY datasets).
  change BarChart.height with Chart.height.
  rewrite Hlo, Hhi, Chart_height, Hy. unfold num.
  set (y := qval (ChartPoint.y p)).
  destruct (yScale_Fin lo hi (Qc_of_Z 150) y) as (sy & Hsy & _).
  destruct (yScale_Fin lo hi (Qc_of_Z 150) (Qc_of_Z 0)) as (s0 & Hs0 & _).
  pose proof (yScale_antitone lo hi (Qc_of_Z 150) (Qc_of_Z 0) y Hlohi Hh) as Hup.
  pose proof (yScale_antitone lo hi (Qc_of_Z 150) y (Qc_of_Z 0) Hlohi Hh) as Hdown.
  rewrite Hsy, Hs0 in Hup, Hdown. rewrite Hsy, Hs0.
  rewrite le_Fin in Hup, Hdown.
  destruct (Math_abs_Fin_sub sy s0) as [Habs1 Habs2].
  destruct (Qclt_le_dec y (Qc_of_Z 0)) as [Hneg|Hnonneg].
  - assert (¬ (Fin y ≥ Fin (Qc_of_Z 0))%js) as Hnge
      by (rewrite ge_Fin; by apply Qclt_not_le).
    specialize (Hdown (Qclt_le_weak _ _ Hneg)). rewrite (Habs2 Hdown).
    rewrite decide_False by done.
    split; [apply le_Fin; rewrite Z2Qc_inj_0; by apply Qcminus_nonneg|].
    split; [done|]. intros _.
    split; [done|]. by rewrite sub_Fin.
  - assert (Fin y ≥ Fin (Qc_of_Z 0))%js as Hge by (by apply ge_Fin).
    specialize (Hup Hnonneg). rewrite (Habs1 Hup).
    rewrite decide_True by done.
    split; [apply le_Fin; rewrite Z2Qc_inj_0; by apply Qcminus_nonneg|].
    split; [|done]. intros _. split; [done|]. by rewrite sub_Fin.
Qed.

Lemma bar_on_zero_line_witness :
  ∃ r, BarChart.bar gappedDatasets (num 1) 0 (ChartDataset.mk "Average Total Cost"
         [point 0 1; point 1 4; point 3 9] "text-amber-500") = Some r
       ∧ Rect.width r = BarChart.barWidth gappedDatasets
       ∧ (num 0 ≤ Rect.height r)%js.
Proof.
  set (ds := ChartDataset.mk _ _ _).
  assert (∃ r, BarChart.bar gappedDatasets (num 1) 0 ds = Some r) as [r Hr]
    by (by eexists).
  exists r. split; [exact Hr|].
  destruct (bar_on_zero_line gappedDatasets (num 1) 0 ds r)
    as (p & _ & _ & _ & Hw & Hh & _); [reflexivity|by_computation|by_computation|exact Hr|].
  split; [exact Hw|exact Hh].
Defined.

Lemma group_arith (gx b c m i : Qc) :
  (0 ≤ b)%Qc → (0 ≤ c ≤ 1)%Qc → (0 < m)%Qc → (0 ≤ i)%Qc → (i + 1 ≤ m)%Qc →
  (gx ≤ gx + b * c / Qc_of_Z 2 + i * (b * (1 - c) / m))%Qc
  ∧ (gx + b * c / Qc_of_Z 2 + i * (b * (1 - c) / m) + b * (1 - c) / m ≤ gx + b)%Qc.
Proof.
  intros Hb [Hc0 Hc1] Hm Hi Him.
  assert (m ≠ 0)%Qc as Hm' by (intros Hz; rewrite Hz in Hm; by apply Qclt_not_eq in Hm).
  set (g := (b * (1 - c))%Qc).
  assert (0 ≤ g)%Qc as Hg
    by (apply Qcmult_nonneg_nonneg; [done|by apply Qcminus_nonneg]).
  set (w := (g / m)%Qc).
  assert (0 ≤ w)%Qc as Hw.
  { unfold w, Qcdiv. apply Qcmult_nonneg_nonneg; [done|].
    by apply Qclt_le_weak, Qcinv_pos. }
  destruct (half_bounds (b * c) ltac:(by apply Qcmult_nonneg_nonneg)) as [Hp0 Hp1].
  set (pad := (b * c / Qc_of_Z 2)%Qc) in *.
  split.
  - rewrite <- (Qcplus_0_r gx) at 1. rewrite <- Qcplus_assoc.
    apply Qcplus_le_mono_l, Qcplus_nonneg_nonneg; [done|].
    by apply Qcmult_nonneg_nonneg.
  - replace (gx + pad + i * w + w)%Qc with (gx + (pad + (i + 1) * w))%Qc by ring.
    apply Qcplus_le_mono_l.
    assert (b * c + g = b)%Qc as Hbg by (unfold g; ring).
    assert (m * w = g)%Qc as Hmw by (unfold w; by apply Qcmult_div_r).
    apply Qcle_trans with (b * c + g)%Qc; [|rewrite Hbg; apply Qcle_refl].
    apply Qcplus_le_compat; [done|].
    apply Qcle_trans with (m * w)%Qc; [|rewrite Hmw; apply Qcle_refl].
    by apply Qcmult_le_mono_nonneg_r.
Qed.

Lemma getXPosition_finite (datasets : list ChartDataset.t) (x : number) :
  isFinite (BarChart.getXPosition datasets x).
Proof.
  unfold BarChart.getXPosition. case_decide; [done|].
  by destruct (bandWidth_finite datasets) as (b & -> & _).
Qed.

(** X16.  In a bar chart with at least one dataset, every bar lies within
    the band of its x-value: the bar of the [i]-th dataset, placed in its
    group, begins no further left than the band and ends no further right
    than the band, so bars of different x-values never overlap. *)
Theorem bar_within_band (datasets : list ChartDataset.t) (x : number) (i : nat) :
  (i < length datasets)%nat →
  let left := (BarChart.groupX datasets x
               + num (Z.of_nat i) * BarChart.barWidth datasets)%js in
  (BarChart.getXPosition datasets x ≤ left)%js
  ∧ (left + BarChart.barWidth datasets
     ≤ BarChart.getXPosition datasets x + BarChart.bandWidth datasets)%js.
Proof.
  intros Hi left. subst left.
  pose proof (getXPosition_finite datasets x) as Hgx%isFinite_qval.
  destruct (bandWidth_finite datasets) as (b & Hb & Hb0 & _).
  set (m := Qc_of_Z (Z.of_nat (length datasets))).
  assert (0 < m)%Qc as Hm by (unfold m; rewrite <- Z2Qc_inj_0, <- Z2Qc_inj_lt; lia).
  assert (m ≠ 0)%Qc as Hm' by (intros Hz; rewrite Hz in Hm; by apply Qclt_not_eq in Hm).
  unfold BarChart.groupX, BarChart.barWidth, BarChart.groupWidth, BarChart.barPadding.
  rewrite Hgx, Hb. unfold num. fold m.
  rewrite !mul_Fin, sub_Fin, mul_Fin, !div_Fin, !mul_Fin, !add_Fin, !le_Fin
    by (done || apply Qc_of_Z_2_ne_0).
  rewrite Z2Qc_inj_1. apply group_arith; [done| |done| |].
  - split; by_computation.
  - apply Qc_of_Z_nonneg. lia.
  - unfold m. rewrite <- Z2Qc_inj_1, <- Z2Qc_inj_add, <- Z2Qc_inj_le. lia.
Qed.

Lemma bar_within_band_witness :
  (BarChart.getXPosition gappedDatasets (num 1)
   ≤ BarChart.groupX gappedDatasets (num 1)
     + num 0 * BarChart.barWidth gappedDatasets)%js.
Proof.
  destruct (bar_within_band gappedDatasets (num 1) 0) as [Hleft _]; [simpl; lia|].
  exact Hleft.
Defined.

(** ** The eased number display *)

Lemma unit_interval_mult (u x : Qc) : (0 ≤ u ≤ 1)%Qc → (0 ≤ x ≤ 1)%Qc → (0 ≤ u * x ≤ 1)%Qc.
Proof.
  intros Hu [Hx0 Hx1]. destruct (unit_interval_scale u x Hu Hx0) as [H0 H1].
  split; [done|by etrans].
Qed.

(** The eased fraction of the frame callback at a progress between 0 and
    the duration. *)
Lemma eased_fraction (p : Qc) :
  (0 ≤ p)%Qc → (p < Qc_of_Z 500)%Qc →
  ∃ e, (0 ≤ e ≤ 1)%Qc
       ∧ (num 1 - Math_pow (num 1 - Math_min [(Fin p / AnimatedNumber.duration)%js; num 1]) 3)%js
         = Fin e.
Proof.
  intros Hp0 Hp.
  assert (0 < Qc_of_Z 500)%Qc as H500 by by_computation.
  assert (Qc_of_Z 500 ≠ 0)%Qc as H500' by by_computation.
  set (f := (p / Qc_of_Z 500)%Qc).
  assert (0 ≤ f)%Qc as Hf0.
  { unfold f, Qcdiv. apply Qcmult_nonneg_nonneg; [done|].
    by apply Qclt_le_weak, Qcinv_pos. }
  assert (f < 1)%Qc as Hf1.
  { unfold f. apply (Qcmult_lt_mono_pos_r _ _ (Qc_of_Z 500)); [done|].
    rewrite Qcmult_1_l. unfold Qcdiv.
    by rewrite <- Qcmult_assoc, Qcmult_inv_l, Qcmult_1_r. }
  unfold AnimatedNumber.duration, num. rewrite div_Fin by done. fold f.
  assert (Math_min [Fin f; Fin (Qc_of_Z 1)] = Fin f) as ->.
  { unfold Math_min. simpl. unfold min2. simpl.
    destruct (f ?= Qc_of_Z 1)%Qc eqn:Hcmp; try done.
    apply (Qcgt_alt f (Qc_of_Z 1)) in Hcmp. rewrite Z2Qc_inj_1 in Hcmp.
    exfalso. by eapply Qclt_not_le, Qclt_le_weak. }
  rewrite sub_Fin. cbn [Math_pow]. unfold num. rewrite !mul_Fin, sub_Fin.
  rewrite Z2Qc_inj_1, Qcmult_1_r. set (u := (1 - f)%Qc).
  assert (0 ≤ u ≤ 1)%Qc as Hu.
  { apply unit_interval_complement. split; [done|by apply Qclt_le_weak]. }
  eexists. split; [|reflexivity].
  apply unit_interval_complement. by repeat apply unit_interval_mult.
Qed.

(** A frame that finds no start recorded, or a recorded start of 0
    (which [!startTime] takes for none), records its own timestamp as the
    start: its progress is 0. *)
Lemma animate_first_frame (startValue endValue : number) (startTime : option number)
    (t : Qc) :
  startTime = None ∨ startTime = Some (Fin 0%Qc) →
  AnimatedNumber.animate startValue endValue startTime (Fin t)
  = AnimatedNumber.mkFrame (startValue + (endValue - startValue) * Fin 0%Qc)%js
      (Some (Fin t)) true.
Proof.
  intros Hunset.
  assert (AnimatedNumber.unset startTime = true) as Hu.
  { destruct Hunset as [->| ->]; [done|]. by vm_compute. }
  unfold AnimatedNumber.animate. rewrite Hu.
  assert ((Fin t - Fin t)%js = Fin 0%Qc) as ->.
  { rewrite sub_Fin. f_equal. ring. }
  rewrite decide_True by by_computation.
  destruct (eased_fraction 0%Qc) as (e & _ & He); [apply Qcle_refl|by_computation|].
  rewrite He.
  assert (e = 0%Qc) as ->; [|done].
  change e with (qval (Fin e)). rewrite <- He. by_computation.
Qed.

(** A frame with a recorded start other than 0 keeps it and measures its
    progress from it. *)
Lemma animate_later_frame (startValue endValue : number) (st t : Qc) :
  st ≠ 0%Qc →
  AnimatedNumber.animate startValue endValue (Some (Fin st)) (Fin t)
  = if decide (t - st < Qc_of_Z 500)%Qc
    then AnimatedNumber.mkFrame
           (startValue + (endValue - startValue)
                         * (num 1 - Math_pow (num 1 - Math_min [(Fin (t - st)
                                                                 / AnimatedNumber.duration)%js;
                                                                num 1]) 3))%js
           (Some (Fin st)) true
    else AnimatedNumber.mkFrame endValue (Some (Fin st)) false.
Proof.
  intros Hst. unfold AnimatedNumber.animate. simpl AnimatedNumber.unset.
  rewrite bool_decide_true by done. simpl negb. cbn [default]. unfold id.
  rewrite sub_Fin.
  destruct (decide (t - st < Qc_of_Z 500)%Qc) as [Hp|Hp].
  - by rewrite decide_True by (by apply lt_Fin).
  - rewrite decide_False; [done|].
    intros H. apply Hp. exact (proj1 (lt_Fin _ _) H).
Qed.

(** X17.  A frame that runs 500 ms or more after a recorded start other
    than 0 shows exactly the end value, keeps the start and requests no
    further frame.  A frame that finds no start recorded, or a recorded
    start of 0 (which the test [!startTime] takes for none), records its
    own timestamp as the start, shows the start value and requests another
    frame, provided the difference of the end value and the start value
    does not exceed [Number.MAX_VALUE] in magnitude. *)
Theorem animate_reaches_end (startValue endValue : Qc) (t : Qc) :
  (∀ st, st ≠ 0%Qc → (st + Qc_of_Z 500 ≤ t)%Qc →
     AnimatedNumber.animate (Fin startValue) (Fin endValue) (Some (Fin st)) (Fin t)
     = AnimatedNumber.mkFrame (Fin endValue) (Some (Fin st)) false)
  ∧ (∀ startTime, startTime = None ∨ startTime = Some (Fin 0%Qc) →
     (Math_abs (Fin endValue - Fin startValue) ≤ Number_MAX_VALUE)%js →
     AnimatedNumber.animate (Fin startValue) (Fin endValue) startTime (Fin t)
     = AnimatedNumber.mkFrame (Fin startValue) (Some (Fin t)) true).
Proof.
  split.
  - intros st Hst Ht. rewrite animate_later_frame by done.
    rewrite decide_False; [done|].
    apply Qcle_not_lt. apply (Qcplus_le_mono_r _ _ st).
    replace (t - st + st)%Qc with t by ring. by rewrite Qcplus_comm.
  - intros startTime Hunset _. rewrite animate_first_frame by done.
    f_equal. rewrite sub_Fin, mul_Fin, add_Fin. f_equal. ring.
Qed.

Lemma animate_reaches_end_witness :
  AnimatedNumber.animate (num 0) (num 42) (Some (num 1000)) (num 1500)
  = AnimatedNumber.mkFrame (num 42) (Some (num 1000)) false
  ∧ AnimatedNumber.animate (num 0) (num 42) (Some (num 0)) (num 600)
    = AnimatedNumber.mkFrame (num 0) (Some (num 600)) true.
Proof.
  split.
  - apply (proj1 (animate_reaches_end (Qc_of_Z 0) (Qc_of_Z 42) (Qc_of_Z 1500))
                 (Qc_of_Z 1000)); by_computation.
  - apply (proj2 (animate_reaches_end (Qc_of_Z 0) (Qc_of_Z 42) (Qc_of_Z 600))
                 (Some (num 0))); [right; by_computation|by_computation].
Defined.



(** ** More on the scenario list *)

(** The two branches of the updater, by the result of the search. *)
Lemma saveScenario_cases (new : Scenario.t) (prev : list Scenario.t) :
  (∃ i old, prev !! i = Some old
            ∧ Scenario.name old = Scenario.name new
            ∧ (∀ j s, (j < i)%nat → prev !! j = Some s →
                      Scenario.name s ≠ Scenario.name new)
            ∧ saveScenario new prev = <[i := new]> prev)
  ∨ ((∀ old, old ∈ prev → Scenario.name old ≠ Scenario.name new)
     ∧ saveScenario new prev = prev ++ [new]).
Proof.
  destruct (list_find (λ s, Scenario.name s = Scenario.name new) prev)
    as [[i old]|] eqn:Hfind.
  - apply list_find_Some in Hfind as (Hi & Hname & Hbefore). left. exists i, old.
    assert (∀ j s, (j < i)%nat → prev !! j = Some s →
                   Scenario.name s ≠ Scenario.name new) as Hbefore'.
    { intros j s Hj Hs. by eapply Hbefore. }
    split; [done|]. split; [done|]. split; [done|].
    by apply (saveScenario_first_match new prev i old).
  - apply list_find_None in Hfind. right.
    assert (∀ old, old ∈ prev → Scenario.name old ≠ Scenario.name new) as Hfresh.
    { intros old Hold. by apply (proj1 (Forall_forall _ _) Hfind). }
    split; [done|]. by apply saveScenario_fresh.
Qed.

Lemma elem_of_saveScenario (new x : Scenario.t) (prev : list Scenario.t) :
  x ∈ saveScenario new prev → x = new ∨ x ∈ prev.
Proof.
  destruct (saveScenario_cases new prev) as [(i & old & _ & _ & _ & ->)|[_ ->]].
  - intros [j Hj]%list_elem_of_lookup.
    apply list_lookup_insert_Some in Hj as [(-> & -> & _)|[_ Hj]]; [by left|].
    right. by eapply list_elem_of_lookup_2.
  - rewrite elem_of_app, list_elem_of_singleton. tauto.
Qed.

Lemma filter_insert_out {A} (P : A → Prop) `{!∀ a, Decision (P a)} (l : list A)
    (i : nat) (old new : A) :
  l !! i = Some old → ¬ P old → ¬ P new → filter P (<[i := new]> l) = filter P l.
Proof.
  intros Hi Hold Hnew.
  rewrite <- (take_drop_middle l i old Hi) at 2.
  rewrite insert_take_drop by by eapply lookup_lt_Some.
  rewrite !filter_app, !filter_cons. by rewrite !decide_False by done.
Qed.

(** X19.  Of two consecutive saves under the same name only the second is
    kept: the list is the one that the second save alone would have given,
    and the second save does not change its length. *)
Theorem saveScenario_latest_kept (new1 new2 : Scenario.t) (prev : list Scenario.t) :
  Scenario.name new1 = Scenario.name new2 →
  saveScenario new2 (saveScenario new1 prev) = saveScenario new2 prev
  ∧ length (saveScenario new2 (saveScenario new1 prev)) = length (saveScenario new1 prev).
Proof.
  intros Hname.
  destruct (saveScenario_cases new1 prev)
    as [(i & old & Hi & Hold & Hbefore & ->)|[Hfresh ->]].
  - pose proof (lookup_lt_Some _ _ _ Hi) as Hlt.
    rewrite (saveScenario_first_match new2 (<[i:=new1]> prev) i new1).
    + rewrite list_insert_insert_eq, length_insert.
      rewrite (saveScenario_first_match new2 prev i old); [|done|congruence|].
      * by rewrite length_insert.
      * intros j s Hj Hs. rewrite <- Hname. by eapply Hbefore.
    + by apply list_lookup_insert_eq.
    + done.
    + intros j s Hj Hs. rewrite list_lookup_insert_ne in Hs by lia.
      rewrite <- Hname. by eapply Hbefore.
  - rewrite (saveScenario_first_match new2 (prev ++ [new1]) (length prev) new1).
    + split; [|by rewrite length_insert].
      replace (length prev) with (length prev + 0)%nat by lia.
      rewrite insert_app_r. simpl.
      rewrite saveScenario_fresh; [done|].
      intros old Hold. rewrite <- Hname. by apply Hfresh.
    + by rewrite lookup_app_r, Nat.sub_diag.
    + done.
    + intros j s Hj Hs. rewrite lookup_app_l in Hs by done.
      rewrite <- Hname. by eapply Hfresh, list_elem_of_lookup_2.
Qed.

Lemma saveScenario_latest_kept_witness :
  let first := Scenario.mk "Standard Oven" "🔥" (num 160) 4 (Qc_of_Z 15) (num 32) (num 12) in
  let second := Scenario.mk "Standard Oven" "🔥" (num 460) 4 (Qc_of_Z 20) (num 32) (num 12) in
  saveScenario second (saveScenario first []) = saveScenario second []
  ∧ length (saveScenario second (saveScenario first [])) = length (saveScenario first []).
Proof.
  intros first second. by apply (saveScenario_latest_kept first second []).
Defined.

(** X20.  A save puts the new scenario into the list, lets the list grow
    by at most one entry and never shrink, and leaves the scenarios saved
    under other names as they were, in their order. *)
Theorem saveScenario_other_names (new : Scenario.t) (prev : list Scenario.t) :
  new ∈ saveScenario new prev
  ∧ (length prev ≤ length (saveScenario new prev) ≤ S (length prev))%nat
  ∧ filter (λ s, Scenario.name s ≠ Scenario.name new) (saveScenario new prev)
    = filter (λ s, Scenario.name s ≠ Scenario.name new) prev.
Proof.
  destruct (saveScenario_cases new prev)
    as [(i & old & Hi & Hold & _ & ->)|[_ ->]].
  - pose proof (lookup_lt_Some _ _ _ Hi) as Hlt. split; [|split].
    + by apply list_elem_of_insert.
    + rewrite length_insert. lia.
    + apply (filter_insert_out _ prev i old new Hi); intros Hne; by apply Hne.
  - split; [|split].
    + apply elem_of_app. right. apply list_elem_of_here.
    + rewrite length_app. simpl. lia.
    + rewrite filter_app, filter_cons, decide_False by (intros Hne; by apply Hne).
      by rewrite filter_nil, app_nil_r.
Qed.

(** ** The application as a whole *)

Lemma fold_left_choice {A} (step : A → A → A) (l : list A) (init : A) :
  (∀ a b, step a b = a ∨ step a b = b) →
  fold_left step l init = init ∨ fold_left step l init ∈ l.
Proof.
  intros Hstep. revert init. induction l as [|b l IH]; intros init; [by left|].
  simpl. destruct (IH (step init b)) as [->|Hin].
  - destruct (Hstep init b) as [->| ->]; [by left|right; apply list_elem_of_here].
  - right. by apply list_elem_of_further.
Qed.

(** [minAtcData] of a non-empty array is one of its entries. *)
Lemma minAtcData_elem (data : list EconomicRecord) :
  data ≠ [] → ∃ m, minAtcData data = Some m ∧ m ∈ data.
Proof.
  intros Hne. unfold minAtcData.
  set (validData :=
         filter (λ d, isFinite (averageTotalCost d) ∧ (0 < labour d)%nat) data).
  assert (∀ r, r ∈ validData → r ∈ data) as Hsub.
  { intros r Hr. unfold validData in Hr. by apply list_elem_of_filter in Hr as [_ Hr]. }
  clearbody validData. case_decide as Hlen.
  - destruct data as [|d data]; [done|]. exists d. split; [done|apply list_elem_of_here].
  - destruct validData as [|v0 rest]; [done|]. cbn [lookup list_lookup mbind option_bind].
    eexists. split; [reflexivity|]. apply Hsub.
    match goal with |- fold_left ?f _ _ ∈ _ =>
      destruct (fold_left_choice f (v0 :: rest) v0) as [Heq|Hin] end.
    + intros a b. case_decide; [by right|by left].
    + rewrite Heq. apply list_elem_of_here.
    + done.
Qed.

(** The invariant of the application state. *)
Lemma App_step_invariant (st st' : App.state) (e : App.event) :
  let inv := λ st,
    (App.labour st ≤ MAX_LABOUR)%nat
    ∧ (App.scheduleIndex st < length PRODUCTION_SCHEDULES)%nat
    ∧ NoDup (Scenario.name <$> App.savedScenarios st)
    ∧ ∀ sc, sc ∈ App.savedScenarios st →
            Scenario.name sc ∈ Schedule.name <$> PRODUCTION_SCHEDULES in
  inv st → App.wellFormed e → App.step st e = Some st' → inv st'.
Proof.
  intros inv (Hl & Hi & Hnd & Hnames) Hwf Hstep. unfold App.step in Hstep.
  destruct (PRODUCTION_SCHEDULES !! App.scheduleIndex st) as [s|] eqn:Hs; [|done].
  cbn [mbind option_bind] in Hstep.
  destruct e as [value|value|index| | |]; simpl in Hwf.
  - injection Hstep as <-. by repeat split.
  - injection Hstep as <-. by repeat split.
  - injection Hstep as <-. by repeat split.
  - destruct (minAtcData_elem (economicData s (App.price st)))
      as (m & Hm & (i & Hle & ->)%economicData_elem); [apply economicData_nonempty|].
    rewrite Hm in Hstep. cbn [mbind option_bind] in Hstep. injection Hstep as <-.
    repeat split; try done; cbn [App.labour]; by rewrite labour_dataPoint.
  - destruct (handleSaveScenario_total s (App.price st) (App.savedScenarios st))
      as (new & Hsave & Hname & _).
    rewrite Hsave in Hstep. cbn [mbind option_bind] in Hstep. injection Hstep as <-.
    repeat split; try done; cbn [App.savedScenarios].
    + by apply saveScenario_names.
    + intros sc [->|Hsc]%elem_of_saveScenario; [|by apply Hnames].
      rewrite Hname. apply list_elem_of_fmap. exists s. split; [done|].
      by eapply list_elem_of_lookup_2.
  - injection Hstep as <-. repeat split; try done; cbn [App.savedScenarios].
    + apply NoDup_nil_2.
    + intros sc Hsc. by apply elem_of_nil in Hsc.
Qed.

Lemma App_step_total (st : App.state) (e : App.event) :
  (App.scheduleIndex st < length PRODUCTION_SCHEDULES)%nat →
  is_Some (App.step st e).
Proof.
  intros [s Hs]%lookup_lt_is_Some. unfold App.step. rewrite Hs.
  cbn [mbind option_bind]. destruct e; [done|done|done| | |done].
  - destruct (minAtcData_elem (economicData s (App.price st))) as (m & -> & _);
      [apply economicData_nonempty|done].
  - destruct (handleSaveScenario_total s (App.price st) (App.savedScenarios st))
      as (new & -> & _). done.
Qed.

(** X21.  In every state that the application reaches from its initial
    state through the slider, button and save handlers, the labour is at
    most [MAX_LABOUR], a schedule of the catalog is selected, the record
    on display exists, the saved scenarios carry distinct names of catalog
    schedules, so the comparison table never has more rows than the
    catalog has schedules, and every handler runs through to a next
    state. *)
Theorem App_reachable_safe (st : App.state) :
  App.reachable st →
  (App.labour st ≤ MAX_LABOUR)%nat
  ∧ (App.scheduleIndex st < length PRODUCTION_SCHEDULES)%nat
  ∧ is_Some (App.currentData st)
  ∧ NoDup (Scenario.name <$> App.savedScenarios st)
  ∧ (length (App.savedScenarios st) ≤ length PRODUCTION_SCHEDULES)%nat
  ∧ ∀ e, App.wellFormed e → ∃ st', App.step st e = Some st' ∧ App.reachable st'.
Proof.
  intros Hreach.
  assert ((App.labour st ≤ MAX_LABOUR)%nat
          ∧ (App.scheduleIndex st < length PRODUCTION_SCHEDULES)%nat
          ∧ NoDup (Scenario.name <$> App.savedScenarios st)
          ∧ ∀ sc, sc ∈ App.savedScenarios st →
                  Scenario.name sc ∈ Schedule.name <$> PRODUCTION_SCHEDULES)
    as (Hl & Hi & Hnd & Hnames).
  { induction Hreach as [|st e st' _ IH Hwf Hstep].
    - repeat split; [unfold MAX_LABOUR; simpl; lia|simpl; lia|apply NoDup_nil_2|].
      intros sc Hsc. by apply elem_of_nil in Hsc.
    - by apply (App_step_invariant st st' e). }
  split; [done|]. split; [done|]. split; [|split; [done|split]].
  - unfold App.currentData. apply lookup_lt_is_Some in Hi as [s ->].
    cbn [mbind option_bind]. apply lookup_lt_is_Some.
    rewrite economicData_length. lia.
  - rewrite <- (length_fmap Scenario.name), <- (length_fmap Schedule.name PRODUCTION_SCHEDULES).
    apply submseteq_length, NoDup_submseteq; [done|].
    intros n (sc & -> & Hsc)%list_elem_of_fmap. by apply Hnames.
  - intros e Hwf. destruct (App_step_total st e Hi) as [st' Hstep].
    exists st'. split; [done|]. by apply (App.reachable_step st e st').
Qed.

Lemma App_reachable_safe_witness :
  is_Some (App.currentData App.initial)
  ∧ ∃ st', App.step App.initial App.SaveScenario = Some st' ∧ App.reachable st'.
Proof.
  destruct (App_reachable_safe App.initial App.reachable_initial)
    as (_ & _ & Hcur & _ & _ & Hstep).
  split; [exact Hcur|]. apply Hstep. exact I.
Defined.

(** ** The goal effect *)



(** ** The columns of a curve chart *)

(** X23.  The columns of a curve chart with finite x-values are the
    x-values of its points, each once, in strictly ascending order. *)
Theorem uniqueXValues_ascending (datasets : list ChartDataset.t) :
  Forall (λ p, isFinite (ChartPoint.x p)) (Chart.allPoints datasets) →
  let u := Chart.uniqueXValues datasets in
  (∀ v, v ∈ u ↔ ∃ p, p ∈ Chart.allPoints datasets ∧ ChartPoint.x p = v)
  ∧ ∀ i j a b, u !! i = Some a → u !! j = Some b → (i < j)%nat → (a < b)%js.
Proof.
  intros Hfin u. split.
  - intros v. unfold u. rewrite elem_of_uniqueXValues. unfold Chart.xValues.
    rewrite list_elem_of_fmap. split; intros (p & H1 & H2); exists p; by split.
  - intros i j a b. by apply uniqueXValues_sorted.
Qed.

Lemma uniqueXValues_ascending_witness :
  Chart.uniqueXValues gappedDatasets !! 1%nat = Some (num 1)
  ∧ Chart.uniqueXValues gappedDatasets !! 2%nat = Some (num 3)
  ∧ (num 1 < num 3)%js.
Proof.
  assert (Chart.uniqueXValues gappedDatasets !! 1%nat = Some (num 1)) as H1 by by_computation.
  assert (Chart.uniqueXValues gappedDatasets !! 2%nat = Some (num 3)) as H2 by by_computation.
  split; [exact H1|]. split; [exact H2|].
  destruct (uniqueXValues_ascending gappedDatasets) as [_ Hasc]; [by_computation|].
  apply (Hasc 1%nat 2%nat (num 1) (num 3) H1 H2). lia.
Defined.
